(** * neural-core-assistant: the message parser and the typewriter revealer

    A shallow embedding of
      - [parseMessage]        (src/utils/messageParser.ts), and
      - [TypewriterMessage]   (src/components/TypewriterMessage.tsx)
    together with the pieces of the JavaScript runtime they rely on:
    strings as sequences of UTF-16 code units, [slice], [indexOf],
    [startsWith], [trim], and a backtracking regular-expression matcher
    in the continuation-passing style of the ECMAScript specification. *)

From Stdlib Require Import String Ascii List ZArith NArith Bool Lia.
From Stdlib Require Import Sorting.Permutation Sorting.Sorted.
Import ListNotations.

Open Scope Z_scope.

(* ================================================================== *)
(** ** JavaScript strings *)
(* ================================================================== *)

Module JS.

(** A string is a sequence of UTF-16 code units. *)
Definition char := N.
Definition jsstring := list char.

(** String literals of the source (ASCII only). *)
Definition lit (s : string) : jsstring :=
  map N_of_ascii (list_ascii_of_string s).

Definition backtick : char := 96%N.
Definition newline : char := 10%N.

(** The literal of three backticks, written '```' in the source. *)
Definition fence : jsstring := [backtick; backtick; backtick].

(** [s.length] *)
Definition len (s : jsstring) : Z := Z.of_nat (length s).

(** [s.slice(start, stop)], negative arguments counting from the end. *)
Definition slice (s : jsstring) (start stop : Z) : jsstring :=
  let from := if start <? 0 then Z.max (len s + start) 0 else Z.min start (len s) in
  let to := if stop <? 0 then Z.max (len s + stop) 0 else Z.min stop (len s) in
  firstn (Z.to_nat (to - from)) (skipn (Z.to_nat from) s).

(** [s.slice(start)] *)
Definition slice_from (s : jsstring) (start : Z) : jsstring :=
  slice s start (len s).

(** Is [p] a prefix of [s]? *)
Fixpoint prefixb (p s : jsstring) : bool :=
  match p, s with
  | [], _ => true
  | _ :: _, [] => false
  | a :: p', b :: s' => N.eqb a b && prefixb p' s'
  end.

(** [s.startsWith(p)] *)
Definition startsWith (s p : jsstring) : bool := prefixb p s.

(** The search loop of [indexOf]: [rest] is the input from offset [k] on. *)
Fixpoint indexOf_loop (search rest : jsstring) (k : Z) : Z :=
  if prefixb search rest then k
  else match rest with
       | [] => -1
       | _ :: rest' => indexOf_loop search rest' (k + 1)
       end.

(** [s.indexOf(search, position)]: the least offset, at or after the
    clamped [position], where [search] occurs; -1 when there is none. *)
Definition indexOf (s search : jsstring) (position : Z) : Z :=
  let start := Z.min (Z.max position 0) (len s) in
  indexOf_loop search (skipn (Z.to_nat start) s) start.

Definition in_range (lo hi c : N) : bool := (N.leb lo c && N.leb c hi)%N.

(** The regular-expression class \w (no [i] or [u] flag): [A-Za-z0-9_]. *)
Definition is_word (c : char) : bool :=
  in_range 97 122 c || in_range 65 90 c || in_range 48 57 c || N.eqb c 95.

(** WhiteSpace and LineTerminator code units: what [trim] strips and
    what the class \s matches. *)
Definition is_space (c : char) : bool :=
  in_range 9 13 c || N.eqb c 32 || N.eqb c 160 || N.eqb c 5760
  || in_range 8192 8202 c || N.eqb c 8232 || N.eqb c 8233 || N.eqb c 8239
  || N.eqb c 8287 || N.eqb c 12288 || N.eqb c 65279.

Fixpoint trimStart (s : jsstring) : jsstring :=
  match s with
  | c :: s' => if is_space c then trimStart s' else s
  | [] => []
  end.

Definition trimEnd (s : jsstring) : jsstring := rev (trimStart (rev s)).

(** [s.trim()] *)
Definition trim (s : jsstring) : jsstring := trimEnd (trimStart s).

End JS.

(* ================================================================== *)
(** ** Regular expressions *)
(* ================================================================== *)

Module RegExp.
Import JS.

(** The fragment of the pattern language that the source uses.
    Quantifiers apply to single-character atoms, as in [\w+] and
    [[\s\S]*?]. *)
Inductive regex : Type :=
| Chr (c : char)                       (* a literal character *)
| Class (p : char -> bool)             (* a character class *)
| Seq (r1 r2 : regex)                  (* r1 r2 *)
| Group (n : nat) (r : regex)          (* ( r ), the n-th capture *)
| Opt (r : regex)                      (* r?   greedy *)
| Plus (p : char -> bool)              (* [p]+   greedy *)
| LazyStar (p : char -> bool).         (* [p]*?  lazy *)

(** A match state: the offset reached in the input and the captures so
    far, each a pair of offsets (start, end). *)
Record MatchState : Type := mkState {
  endIndex : Z;
  captures : nat -> option (Z * Z)
}.

Definition advance (x : MatchState) : MatchState :=
  mkState (endIndex x + 1) (captures x).

Definition set_capture (n : nat) (range : Z * Z) (x : MatchState) : MatchState :=
  mkState (endIndex x)
          (fun m => if Nat.eqb m n then Some range else captures x m).

(** A continuation receives the state and the input not yet read. *)
Definition Continuation := MatchState -> jsstring -> option MatchState.

(** Greedy iteration: first try one more character, then the rest. *)
Fixpoint star_greedy (p : char -> bool) (x : MatchState) (rest : jsstring)
         (c : Continuation) : option MatchState :=
  match rest with
  | a :: rest' =>
      if p a then
        match star_greedy p (advance x) rest' c with
        | Some y => Some y
        | None => c x rest
        end
      else c x rest
  | [] => c x rest
  end.

(** Lazy iteration: first try the rest, then one more character. *)
Fixpoint star_lazy (p : char -> bool) (x : MatchState) (rest : jsstring)
         (c : Continuation) : option MatchState :=
  match c x rest with
  | Some y => Some y
  | None =>
      match rest with
      | a :: rest' => if p a then star_lazy p (advance x) rest' c else None
      | [] => None
      end
  end.

(** The backtracking matcher. *)
Fixpoint matcher (r : regex) (x : MatchState) (rest : jsstring)
         (c : Continuation) : option MatchState :=
  match r with
  | Chr ch =>
      match rest with
      | a :: rest' => if N.eqb a ch then c (advance x) rest' else None
      | [] => None
      end
  | Class p =>
      match rest with
      | a :: rest' => if p a then c (advance x) rest' else None
      | [] => None
      end
  | Seq r1 r2 =>
      matcher r1 x rest (fun y rest' => matcher r2 y rest' c)
  | Group n r1 =>
      matcher r1 x rest
              (fun y rest' => c (set_capture n (endIndex x, endIndex y) y) rest')
  | Opt r1 =>
      match matcher r1 x rest
                    (fun y rest' =>
                       if endIndex y =? endIndex x then None else c y rest') with
      | Some y => Some y
      | None => c x rest
      end
  | Plus p =>
      match rest with
      | a :: rest' => if p a then star_greedy p (advance x) rest' c else None
      | [] => None
      end
  | LazyStar p => star_lazy p x rest c
  end.

Definition no_captures : nat -> option (Z * Z) := fun _ => None.

(** Try the pattern at offset [i], then at every later offset. *)
Fixpoint exec_loop (r : regex) (i : Z) (rest : jsstring) : option (Z * MatchState) :=
  match matcher r (mkState i no_captures) rest (fun y _ => Some y) with
  | Some y => Some (i, y)
  | None =>
      match rest with
      | [] => None
      | _ :: rest' => exec_loop r (i + 1) rest'
      end
  end.

(** The result of a successful [exec]: [index], [match[0]], and the
    captures (a capture that took no part in the match is undefined). *)
Record MatchResult : Type := mkResult {
  index : Z;
  matched : jsstring;
  group : nat -> option jsstring
}.

(** [re.exec(s)] for a pattern with the [g] flag, whose [lastIndex]
    property is threaded through: the search starts there, a match
    moves it to the end of the match, a failure resets it to 0. *)
Definition exec (r : regex) (lastIndex : Z) (s : jsstring)
  : option MatchResult * Z :=
  if len s <? lastIndex then (None, 0)
  else
    match exec_loop r lastIndex (slice_from s lastIndex) with
    | None => (None, 0)
    | Some (i, y) =>
        (Some (mkResult i (slice s i (endIndex y))
                 (fun n => match captures y n with
                           | Some (a, b) => Some (slice s a b)
                           | None => None
                           end)),
         endIndex y)
    end.

End RegExp.

(* ================================================================== *)
(** ** src/utils/messageParser.ts *)
(* ================================================================== *)

Module MessageParser.
Import JS RegExp.

Inductive PartType : Type := text | code.

Record MessagePart : Type := mkPart {
  type : PartType;
  content : jsstring;
  language : option jsstring
}.

Definition plaintext : jsstring := lit "plaintext".

(** The pattern of line 14,  ```(\w+)?\n([\s\S]*?)```  *)
Definition codeBlockRegex : regex :=
  Seq (Chr backtick) (Seq (Chr backtick) (Seq (Chr backtick)
  (Seq (Opt (Group 1 (Plus is_word)))
  (Seq (Chr newline)
  (Seq (Group 2 (LazyStar (fun c => is_space c || negb (is_space c))))
  (Seq (Chr backtick) (Seq (Chr backtick) (Chr backtick)))))))).

(** [a || b] on strings: the empty string and undefined are falsy. *)
Definition or_else (a : option jsstring) (b : jsstring) : jsstring :=
  match a with
  | Some (c :: a') => c :: a'
  | _ => b
  end.

(** The while loop of lines 18-35.  [reLastIndex] is the [lastIndex]
    property of [codeBlockRegex], [lastIndex] the local variable.  The
    result is [None] when the loop bound [fuel] is exhausted, or when
    [match[2]] is undefined so that [trim] cannot be called on it. *)
Fixpoint parse_loop (fuel : nat) (message : jsstring) (reLastIndex lastIndex : Z)
         (parts : list MessagePart) : option (Z * list MessagePart) :=
  match fuel with
  | O => None
  | S fuel' =>
      match exec codeBlockRegex reLastIndex message with
      | (None, _) => Some (lastIndex, parts)
      | (Some m, reLastIndex') =>
          let parts1 :=
            if lastIndex <? index m
            then parts ++ [mkPart text (slice message lastIndex (index m)) None]
            else parts in
          match group m 2 with
          | None => None
          | Some body =>
              let parts2 :=
                parts1 ++ [mkPart code (trim body) (Some (or_else (group m 1) plaintext))] in
              parse_loop fuel' message reLastIndex' (index m + len (matched m)) parts2
          end
      end
  end.

(** [parseMessage(message)].  Every match is at least seven characters
    long, so [length message + 1] iterations are enough. *)
Definition parseMessage (message : jsstring) : option (list MessagePart) :=
  match parse_loop (S (length message)) message 0 0 [] with
  | None => None
  | Some (lastIndex, parts) =>
      Some (if lastIndex <? len message
            then parts ++ [mkPart text (slice_from message lastIndex) None]
            else parts)
  end.

End MessageParser.

(* ================================================================== *)
(** ** src/components/TypewriterMessage.tsx *)
(* ================================================================== *)

Module Typewriter.
Import JS MessageParser.

(** The component is driven by two kinds of events, the scheduled
    timeout firing and a click.  Each handler runs to completion; the
    state updates it queued are then applied in one render, after which
    the effect is run again if one of its dependencies changed, its
    previous cleanup first.  The delay of the timeout is not modelled:
    only the order of events matters here. *)

(** One mounted [TypewriterMessage].  The first four fields are the
    [useState] cells of lines 12-15.  The last two record what the
    component has asked of its environment: whether a timeout is
    scheduled (line 19, cancelled by the cleanup of line 41), and how
    many times line 44 has called [onComplete]. *)
Record Component : Type := mkComponent {
  displayedContent : jsstring;
  currentIndex : Z;
  isPaused : bool;
  isComplete : bool;
  timerPending : bool;
  notified : nat
}.

(** The timeout callback of lines 19-39, run with the [currentIndex] of
    the render that scheduled it; [prev] is the displayed content at the
    time the functional update is applied.  Returns the new
    [displayedContent] and [currentIndex]. *)
Definition onTimeout (content : jsstring) (currentIndex : Z) (prev : jsstring)
  : jsstring * Z :=
  let byChars :=
    let charsToAdd := Z.min 3 (len content - currentIndex) in
    let nextChars := slice content currentIndex (currentIndex + charsToAdd) in
    (prev ++ nextChars, currentIndex + charsToAdd) in
  if startsWith (slice_from content currentIndex) fence then
    let remainingContent := slice_from content currentIndex in
    let endIndex := indexOf remainingContent fence 3 in
    if negb (endIndex =? -1) then
      let codeBlock := slice remainingContent 0 (endIndex + 3) in
      (prev ++ codeBlock, currentIndex + len codeBlock)
    else byChars
  else byChars.

(** The effect of lines 17-46, after its previous cleanup has run. *)
Definition effect (content : jsstring) (c : Component) : Component :=
  if currentIndex c <? len content then
    mkComponent (displayedContent c) (currentIndex c) (isPaused c) (isComplete c)
                true (notified c)
  else
    mkComponent (displayedContent c) (currentIndex c) (isPaused c) true
                false (S (notified c)).

(** A render is committed: the effect runs again when one of its
    dependencies differs from the previous render.  [content] and
    [onComplete] are props, fixed for the life of the component. *)
Definition commit (content : jsstring) (old new : Component) : Component :=
  if (currentIndex old =? currentIndex new) && Bool.eqb (isPaused old) (isPaused new)
  then new
  else effect content new.

(** The component mounts: initial state, then the effect. *)
Definition mount (content : jsstring) : Component :=
  effect content (mkComponent [] 0 false false false 0).

(** The scheduled timeout fires. *)
Definition tick (content : jsstring) (c : Component) : Component :=
  if timerPending c then
    let '(displayed, idx) := onTimeout content (currentIndex c) (displayedContent c) in
    commit content c
           (mkComponent displayed idx (isPaused c) (isComplete c) false (notified c))
  else c.

(** [handleClick], lines 49-55, and the render that follows. *)
Definition handleClick (content : jsstring) (c : Component) : Component :=
  if currentIndex c <? len content then
    commit content c
           (mkComponent content (len content) true (isComplete c)
                        (timerPending c) (notified c))
  else c.

Inductive Event : Type := Tick | Click.

Definition step (content : jsstring) (c : Component) (e : Event) : Component :=
  match e with
  | Tick => tick content c
  | Click => handleClick content c
  end.

(** The component after a sequence of events. *)
Definition run (content : jsstring) (events : list Event) : Component :=
  fold_left (step content) events (mount content).

(** What [renderContent] (lines 58-72) hands to the renderer. *)
Inductive Element : Type :=
| CodeBlockElement (code language : jsstring)
| Paragraph (content : jsstring).

Definition renderPart (part : MessagePart) : Element :=
  match type part with
  | code => CodeBlockElement (content part) (or_else (language part) plaintext)
  | text => Paragraph (content part)
  end.

(** [None] is the [null] of line 59, or a parse that did not return. *)
Definition renderContent (c : Component) : option (list Element) :=
  match displayedContent c with
  | [] => None
  | _ :: _ =>
      match parseMessage (displayedContent c) with
      | Some parts => Some (map renderPart parts)
      | None => None
      end
  end.

End Typewriter.

Import JS RegExp MessageParser Typewriter.

(* ================================================================== *)
(** ** The pattern read as an explicit forward scanner *)
(* ================================================================== *)

(** The functions of this module are not in the source.  They say what
    [codeBlockRegex] computes, as a scan from left to right, and are
    proved equal to the matcher further down ([matcher_block],
    [exec_loop_first_block]); the theorems about parseMessage go through
    them. *)
Module Scanner.

(** The longest run of word characters at the head of [s], and what
    follows it. *)
Fixpoint span_word (s : jsstring) : jsstring * jsstring :=
  match s with
  | c :: s' =>
      if is_word c then let (w, r) := span_word s' in (c :: w, r) else ([], s)
  | [] => ([], [])
  end.

(** Split [s] at its first fence: the text before it and the text after. *)
Fixpoint find_fence (s : jsstring) : option (jsstring * jsstring) :=
  if prefixb fence s then Some ([], skipn 3 s)
  else match s with
       | [] => None
       | c :: s' =>
           match find_fence s' with
           | Some (b, r) => Some (c :: b, r)
           | None => None
           end
       end.

(** A fenced block at the head of [s]: fence, tag, newline, body up to
    the next fence.  Returns tag, body, and the text after the block. *)
Definition block_at (s : jsstring) : option (jsstring * jsstring * jsstring) :=
  if prefixb fence s then
    let (w, r) := span_word (skipn 3 s) in
    match r with
    | c :: r' =>
        if N.eqb c newline then
          match find_fence r' with
          | Some (b, after) => Some (w, b, after)
          | None => None
          end
        else None
    | [] => None
    end
  else None.

(** The leftmost fenced block of [s]: the text skipped before it, its
    tag, its body, and the text after it. *)
Fixpoint first_block (s : jsstring)
  : option (jsstring * jsstring * jsstring * jsstring) :=
  match block_at s with
  | Some (w, b, after) => Some ([], w, b, after)
  | None =>
      match s with
      | [] => None
      | c :: s' =>
          match first_block s' with
          | Some (t, w, b, after) => Some (c :: t, w, b, after)
          | None => None
          end
      end
  end.

(** *** The pattern piece by piece, and the states it accepts in *)

(** The continuation that accepts. *)
Definition final : Continuation := fun y _ => Some y.

(** The closing delimiter. *)
Definition closer : regex :=
  Seq (Chr backtick) (Seq (Chr backtick) (Chr backtick)).

(** The class [[\s\S]]. *)
Definition any : char -> bool := fun c => is_space c || negb (is_space c).

(** The pattern from the newline on. *)
Definition body_regex : regex :=
  Seq (Chr newline) (Seq (Group 2 (LazyStar any)) closer).

(** The state in which a block that began its body at [start] and whose
    body ends at [e] is accepted. *)
Definition close_state (start e : Z) caps : MatchState :=
  advance (advance (advance (set_capture 2 (start, e) (mkState e caps)))).

(** The state after the optional tag [w], read from offset [e]. *)
Definition tagged (e : Z) caps (w : jsstring) : MatchState :=
  match w with
  | [] => mkState e caps
  | _ :: _ => set_capture 1 (e, e + len w) (mkState (e + len w) caps)
  end.

(** The state in which the block with tag [w] and body [b], found at
    offset [i], is accepted. *)
Definition block_state (i : Z) (w b : jsstring) : MatchState :=
  let y := tagged (i + 3) no_captures w in
  close_state (endIndex y + 1) (endIndex y + 1 + len b) (captures y).

End Scanner.

(* ================================================================== *)
(** ** Vocabulary of the specification *)
(* ================================================================== *)

(** A piece of the input: plain text, or a fenced block with its tag
    and its untrimmed body. *)
Inductive chunk : Type :=
| TextChunk (t : jsstring)
| FenceChunk (lang body : jsstring).

(** The source text of a chunk. *)
Definition source (c : chunk) : jsstring :=
  match c with
  | TextChunk t => t
  | FenceChunk lang body => fence ++ lang ++ [newline] ++ body ++ fence
  end.

Definition sources (cs : list chunk) : jsstring := concat (map source cs).

(** The segment a chunk is rendered as. *)
Definition part_of (c : chunk) : MessagePart :=
  match c with
  | TextChunk t => mkPart text t None
  | FenceChunk lang body =>
      mkPart code (trim body)
             (Some (match lang with [] => plaintext | _ :: _ => lang end))
  end.

(** [p] occurs in [s] at offset [k]. *)
Definition occurs_at (p s : jsstring) (k : nat) : Prop :=
  exists pre post, s = pre ++ p ++ post /\ length pre = k.

(** The body of a block ends at the first fence after the opener. *)
Definition first_closer (body : jsstring) : Prop :=
  forall k, (k < length body)%nat -> ~ occurs_at fence (body ++ fence) k.

Definition wf_chunk (c : chunk) : Prop :=
  match c with
  | TextChunk t => t <> []
  | FenceChunk lang body =>
      Forall (fun ch => is_word ch = true) lang /\ first_closer body
  end.

Definition is_text (c : chunk) : bool :=
  match c with TextChunk _ => true | FenceChunk _ _ => false end.

(** No two neighbours are both text. *)
Fixpoint alternating (cs : list chunk) : Prop :=
  match cs with
  | [] => True
  | c :: cs' =>
      match cs' with
      | d :: _ => is_text c && is_text d = false
      | [] => True
      end /\ alternating cs'
  end.

(** How the scanner cuts an input into chunks: at each leftmost
    block, until the rest holds no block. *)
Inductive scans : jsstring -> list chunk -> Prop :=
| scans_nil : scans [] []
| scans_text t :
    t <> [] -> Scanner.first_block t = None -> scans t [TextChunk t]
| scans_fence s w b after cs :
    Scanner.first_block s = Some ([], w, b, after) ->
    scans after cs ->
    scans s (FenceChunk w b :: cs)
| scans_text_fence s t w b after cs :
    t <> [] ->
    Scanner.first_block s = Some (t, w, b, after) ->
    scans after cs ->
    scans s (TextChunk t :: FenceChunk w b :: cs).

Definition nl : jsstring := [newline].

(** No two neighbouring segments are both text. *)
Definition no_adjacent_text (parts : list MessagePart) : Prop :=
  forall pre a b post,
    parts = pre ++ a :: b :: post -> type a = text -> type b = text -> False.

(** The segment [part] comes from a complete fenced block of [p]:
    opener, tag, newline, body and closing delimiter all lie in [p]. *)
Definition from_complete_block (p : jsstring) (part : MessagePart) : Prop :=
  exists pre lang body post,
    p = pre ++ fence ++ lang ++ [newline] ++ body ++ fence ++ post
    /\ wf_chunk (FenceChunk lang body)
    /\ part = part_of (FenceChunk lang body).

(** *** Inputs used as examples *)

(** Hi, newline, a python block holding print(1), newline, Bye. *)
Definition mixed_input : jsstring :=
  lit "Hi" ++ nl ++ lit "```python" ++ nl ++ lit "print(1)" ++ nl ++ lit "```"
      ++ nl ++ lit "Bye".

(** A fence that is opened and never closed. *)
Definition unterminated_input : jsstring :=
  lit "before ```js" ++ nl ++ lit "const x = 1;".

(** One character of text, then a complete fenced block. *)
Definition unaligned_input : jsstring :=
  lit "a```" ++ nl ++ lit "b" ++ nl ++ lit "```".

(** A complete js block whose closing delimiter is followed by a tag
    and a newline, as an opener would be, and then by no other fence. *)
Definition reopened_input : jsstring :=
  lit "```js" ++ nl ++ lit "x" ++ nl ++ lit "```py" ++ nl ++ lit "y".

(** Three backticks, a space, newline, hello, newline, three backticks. *)
Definition space_input : jsstring :=
  lit "``` " ++ nl ++ lit "hello" ++ nl ++ lit "```".

(** The final text chunk of a scan, if any. *)
Definition tail_chunk (tail : jsstring) : list chunk :=
  match tail with [] => [] | _ :: _ => [TextChunk tail] end.

(** The closing delimiter of a fence that opens [s]: the first
    occurrence of three backticks at offset 3 or later. *)
Definition closing_at (s : jsstring) (k : nat) : Prop :=
  (3 <= k)%nat /\ occurs_at fence s k
  /\ forall j, (3 <= j < k)%nat -> ~ occurs_at fence s j.

(** What is true of the component over [content] between events. *)
Definition consistent (content : jsstring) (c : Component) : Prop :=
  exists n, (n <= length content)%nat
    /\ currentIndex c = Z.of_nat n
    /\ displayedContent c = firstn n content
    /\ timerPending c = (n <? length content)%nat
    /\ isComplete c = negb (n <? length content)%nat
    /\ notified c = (if (n <? length content)%nat then 0 else 1)%nat.

(* ================================================================== *)
(** ** More of the components *)
(* ================================================================== *)

(** The delay given to [setTimeout] at line 39 of the typewriter,
    [isPaused ? 0 : Math.random() * 15 + 10]: either zero, or a random
    number of milliseconds whose value plays no part here. *)
Inductive Delay : Type := Zero | Random.

Definition timeoutDelay (c : Component) : Delay :=
  if isPaused c then Zero else Random.

(** src/pages/Dashboard.tsx, the parts that handle message text. *)
Module Dashboard.

Inductive Role : Type := user | assistant.

(** A message, with the two fields that rendering reads. *)
Record Message : Type := mkMessage {
  role : Role;
  content : jsstring
}.

(** What [renderMessageContent] (lines 225-241) returns: the typewriter
    component for an assistant message, the rendered segments
    otherwise.  The mapping of segments to elements is, line for line,
    that of the typewriter's [renderContent]. *)
Inductive Rendered : Type :=
| TypewriterMessageElement (content : jsstring)
| Elements (elements : list Element).

Definition renderMessageContent (message : Message) : option Rendered :=
  match role message with
  | assistant => Some (TypewriterMessageElement (content message))
  | user =>
      match parseMessage (content message) with
      | Some parts => Some (Elements (map renderPart parts))
      | None => None
      end
  end.

(** The title given to a conversation from its first message, line 189:
    [messageContent.slice(0, 50) + (messageContent.length > 50 ? '...' : '')]. *)
Definition title (messageContent : jsstring) : jsstring :=
  slice messageContent 0 50
  ++ (if 50 <? len messageContent then lit "..." else []).

End Dashboard.

(** src/components/CodeBlock.tsx: the copy button. *)
Module CodeBlock.

(** The [copied] cell of line 29, and the number of [setTimeout]
    callbacks of line 34 that have not fired yet. *)
Record State : Type := mkState {
  copied : bool;
  pendingResets : nat
}.

Definition initial : State := mkState false 0.

(** [handleCopy], lines 31-35, from the point where the clipboard write
    has settled: when it resolved, the mark is set and a reset is
    scheduled; when it rejected, the rest of the function is skipped. *)
Definition handleCopy (written : bool) (s : State) : State :=
  if written then mkState true (S (pendingResets s)) else s.

(** One scheduled reset fires: [setCopied(false)]. *)
Definition reset (s : State) : State :=
  match pendingResets s with
  | O => s
  | S n => mkState false n
  end.

Inductive Event : Type := Copy (written : bool) | ResetFires.

Definition step (s : State) (e : Event) : State :=
  match e with
  | Copy written => handleCopy written s
  | ResetFires => reset s
  end.

Definition run (events : list Event) : State := fold_left step events initial.


End CodeBlock.

(** Arrays, as far as the code below uses them. *)
Module JSArray.

(** [a === b] on strings. *)
Fixpoint strictEquals (a b : jsstring) : bool :=
  match a, b with
  | [], [] => true
  | x :: a', y :: b' => N.eqb x y && strictEquals a' b'
  | _, _ => false
  end.

Section Generic.
Context {A : Type}.

(** [xs.slice(start, stop)], as for strings. *)
Definition slice (xs : list A) (start stop : Z) : list A :=
  let n := Z.of_nat (length xs) in
  let from := if start <? 0 then Z.max (n + start) 0 else Z.min start n in
  let to := if stop <? 0 then Z.max (n + stop) 0 else Z.min stop n in
  firstn (Z.to_nat (to - from)) (skipn (Z.to_nat from) xs).

(** [xs.find(p)] *)
Fixpoint find (p : A -> bool) (xs : list A) : option A :=
  match xs with
  | [] => None
  | x :: xs' => if p x then Some x else find p xs'
  end.

(** [xs.sort(compare)] for a consistent comparator: the stable sort,
    here by insertion.  [compare a b <= 0] keeps [a] before [b]. *)
Fixpoint insert (compare : A -> A -> Z) (x : A) (xs : list A) : list A :=
  match xs with
  | [] => [x]
  | y :: xs' =>
      if compare x y <=? 0 then x :: y :: xs' else y :: insert compare x xs'
  end.

Definition sort (compare : A -> A -> Z) (xs : list A) : list A :=
  fold_right (insert compare) [] xs.

End Generic.

(** [xs.indexOf(s)] on an array of strings: the first index, or -1. *)
Fixpoint indexOf_loop (s : jsstring) (xs : list jsstring) (k : Z) : Z :=
  match xs with
  | [] => -1
  | x :: xs' => if strictEquals x s then k else indexOf_loop s xs' (k + 1)
  end.

Definition indexOf (xs : list jsstring) (s : jsstring) : Z := indexOf_loop s xs 0.

(** [xs.join(sep)] *)
Fixpoint join (sep : jsstring) (xs : list jsstring) : jsstring :=
  match xs with
  | [] => []
  | [x] => x
  | x :: xs' => x ++ sep ++ join sep xs'
  end.

End JSArray.

(** src/pages/Dashboard.tsx, the list of conversations. *)
Module Conversations.

Record Conversation : Type := mkConversation {
  id : jsstring;
  title : jsstring;
  updated_at : jsstring
}.

(** The state updates of one handler: the new list of conversations,
    the new current conversation when [setCurrentConversation] is
    called, and whether the messages are cleared. *)
Record Update : Type := mkUpdate {
  setConversations : list Conversation;
  setCurrentConversation : option (option jsstring);
  clearMessages : bool
}.

(** [currentConversation === id], the left side being a string or null. *)
Definition isCurrent (currentConversation : option jsstring) (i : jsstring) : bool :=
  match currentConversation with
  | Some c => JSArray.strictEquals c i
  | None => false
  end.

(** [deleteConversation], lines 136-150, from the point where the
    delete has returned: nothing is set on an error; otherwise the
    conversation is filtered out and, when it was the current one, the
    first other conversation becomes current.  [conversations] and
    [currentConversation] are the values the handler closed over. *)
Definition deleteConversation (conversations : list Conversation)
           (currentConversation : option jsstring) (i : jsstring) (error : bool)
  : option Update :=
  if error then None
  else
    let remaining :=
      filter (fun conv => negb (JSArray.strictEquals (id conv) i)) conversations in
    if isCurrent currentConversation i then
      let nextConv :=
        JSArray.find (fun conv => negb (JSArray.strictEquals (id conv) i))
                     conversations in
      Some (mkUpdate remaining
                     (Some (match nextConv with
                            | Some conv => Some (id conv)
                            | None => None
                            end))
                     true)
    else Some (mkUpdate remaining None false).

(** [saveTitle], lines 119-134: nothing happens without a conversation
    being edited or with a title that is empty once trimmed; otherwise,
    when the update returned without error, the trimmed title replaces
    that of every conversation with the edited id. *)
Definition saveTitle (conversations : list Conversation)
           (editingTitle : option jsstring) (newTitle : jsstring) (error : bool)
  : option (list Conversation) :=
  match editingTitle with
  | None => None
  | Some [] => None
  | Some (c :: e) =>
      match trim newTitle with
      | [] => None
      | _ :: _ =>
          if error then None
          else Some (map (fun conv =>
                            if JSArray.strictEquals (id conv) (c :: e)
                            then mkConversation (id conv) (trim newTitle)
                                                (updated_at conv)
                            else conv)
                         conversations)
      end
  end.

End Conversations.

(** src/lib/nlp.ts: the summary.  The three counts stand for the
    lengths of the matches of #Noun, #Verb and #Adjective that the
    language library finds in a sentence (lines 93-97). *)
Module Nlp.
Section Summary.

Variables nouns verbs adjectives : jsstring -> Z.

Record Scored : Type := mkScored {
  sentence : jsstring;
  score : Z
}.

(** Lines 92-99. *)
Definition sentenceScores (sentences : list jsstring) : list Scored :=
  map (fun s => mkScored s (nouns s * 2 + verbs s + adjectives s)) sentences.

(** Line 102, [Math.min(3, Math.ceil(sentences.length / 2))]. *)
Definition summaryLength (sentences : list jsstring) : Z :=
  Z.min 3 ((Z.of_nat (length sentences) + 1) / 2).

(** Lines 103-107. *)
Definition topSentences (sentences : list jsstring) : list jsstring :=
  JSArray.sort
    (fun a b => JSArray.indexOf sentences a - JSArray.indexOf sentences b)
    (map sentence
         (JSArray.slice
            (JSArray.sort (fun a b => score b - score a) (sentenceScores sentences))
            0 (summaryLength sentences))).

(** [generateSummary], lines 88-110. *)
Definition generateSummary (sentences : list jsstring) : jsstring :=
  if Z.of_nat (length sentences) <=? 2 then JSArray.join (lit " ") sentences
  else JSArray.join (lit " ") (topSentences sentences).

End Summary.
End Nlp.

(* ================================================================== *)
(** ** The runtime model on small inputs *)
(* ================================================================== *)

Section Checks.

Example slice_negative : slice (lit "hello") (-3) (-1) = lit "ll".
Proof. reflexivity. Qed.

Example slice_clamped : slice (lit "hello") 3 99 = lit "lo".
Proof. reflexivity. Qed.

Example indexOf_found : indexOf (lit "``````") fence 3 = 3.
Proof. reflexivity. Qed.

Example indexOf_overlap : indexOf (lit "````") fence 3 = -1.
Proof. reflexivity. Qed.

Example trim_both_ends : trim (lit "  a b " ++ nl) = lit "a b".
Proof. reflexivity. Qed.

(** Four backticks: the attempt at offset 0 fails on the fourth, the
    attempt at offset 1 succeeds. *)
Example exec_second_offset :
  option_map index (fst (exec codeBlockRegex 0 (lit "````" ++ nl ++ lit "x```")))
  = Some 1.
Proof. reflexivity. Qed.

Example exec_captures :
  option_map (fun m => (group m 1%nat, group m 2%nat, matched m))
             (fst (exec codeBlockRegex 0 (lit "a```js" ++ nl ++ lit "x```b")))
  = Some (Some (lit "js"), Some (lit "x"), lit "```js" ++ nl ++ lit "x```").
Proof. reflexivity. Qed.

(** The tag must be followed by the newline at once. *)
Example exec_tag_then_space :
  fst (exec codeBlockRegex 0 (lit "```js " ++ nl ++ lit "x```")) = None.
Proof. reflexivity. Qed.

(** [lastIndex] moves to the end of the match, and back to 0 on failure. *)
Example exec_lastIndex :
  snd (exec codeBlockRegex 0 (lit "a```" ++ nl ++ lit "```b")) = 8
  /\ snd (exec codeBlockRegex 8 (lit "a```" ++ nl ++ lit "```b")) = 0.
Proof. split; reflexivity. Qed.

End Checks.

(* ================================================================== *)
(** ** Strings: basic facts *)
(* ================================================================== *)

Section Strings.

Lemma len_nil : len [] = 0.
Proof. reflexivity. Qed.

Lemma len_cons (a : char) (s : jsstring) : len (a :: s) = 1 + len s.
Proof. unfold len. cbn [length]. lia. Qed.

Lemma len_app (s t : jsstring) : len (s ++ t) = len s + len t.
Proof. unfold len. rewrite length_app. lia. Qed.

Lemma len_nonneg (s : jsstring) : 0 <= len s.
Proof. unfold len. lia. Qed.

Lemma prefixb_app (p r : jsstring) : prefixb p (p ++ r) = true.
Proof.
  induction p as [|a p IH]; cbn; [reflexivity|].
  now rewrite N.eqb_refl, IH.
Qed.

Lemma prefixb_split (p s : jsstring) :
  prefixb p s = true -> s = p ++ skipn (length p) s.
Proof.
  revert s. induction p as [|a p IH]; intros s H; [reflexivity|].
  destruct s as [|b s]; cbn in H; [discriminate|].
  apply andb_true_iff in H. destruct H as [Hab Hp].
  apply N.eqb_eq in Hab. subst b. cbn. f_equal. now apply IH.
Qed.

Lemma prefixb_iff (p s : jsstring) :
  prefixb p s = true <-> exists r, s = p ++ r.
Proof.
  split.
  - intros H. eexists. now apply prefixb_split.
  - intros [r ->]. apply prefixb_app.
Qed.

(** Slicing with offsets inside the string. *)
Lemma slice_app_mid (pre mid post : jsstring) :
  slice (pre ++ mid ++ post) (len pre) (len pre + len mid) = mid.
Proof.
  unfold slice. rewrite !len_app.
  pose proof (len_nonneg pre). pose proof (len_nonneg mid).
  pose proof (len_nonneg post).
  destruct (Z.ltb_spec (len pre) 0); [lia|].
  destruct (Z.ltb_spec (len pre + len mid) 0); [lia|].
  rewrite !Z.min_l by lia.
  replace (Z.to_nat (len pre)) with (length pre) by (unfold len; lia).
  replace (Z.to_nat (len pre + len mid - len pre)) with (length mid)
    by (unfold len; lia).
  rewrite skipn_app, skipn_all, Nat.sub_diag. cbn [skipn app].
  rewrite firstn_app, firstn_all, Nat.sub_diag. cbn [firstn].
  now rewrite app_nil_r.
Qed.

Lemma slice_from_app (pre post : jsstring) :
  slice_from (pre ++ post) (len pre) = post.
Proof.
  unfold slice_from.
  replace (len (pre ++ post)) with (len pre + len post) by now rewrite len_app.
  rewrite <- (app_nil_r post) at 1. rewrite slice_app_mid. reflexivity.
Qed.

Lemma trimStart_spec (s : jsstring) :
  exists l, s = l ++ trimStart s
            /\ Forall (fun c => is_space c = true) l
            /\ forall c t, trimStart s = c :: t -> is_space c = false.
Proof.
  induction s as [|a s (l & E & Hl & Hh)].
  - exists []. repeat split; [constructor|discriminate].
  - cbn [trimStart]. destruct (is_space a) eqn:Ha.
    + exists (a :: l). split; [cbn; now f_equal|]. split; [now constructor|exact Hh].
    + exists []. split; [reflexivity|]. split; [constructor|].
      now intros c t [= <- _].
Qed.

Lemma trimEnd_spec (s : jsstring) :
  exists r, s = trimEnd s ++ r
            /\ Forall (fun c => is_space c = true) r
            /\ forall t c, trimEnd s = t ++ [c] -> is_space c = false.
Proof.
  unfold trimEnd. destruct (trimStart_spec (rev s)) as (l & E & Hl & Hh).
  exists (rev l). split; [|split].
  - rewrite <- rev_app_distr, <- E. symmetry. apply rev_involutive.
  - now apply Forall_rev.
  - intros t c Ht. apply (f_equal (@rev char)) in Ht.
    rewrite rev_involutive, rev_app_distr in Ht. cbn in Ht. exact (Hh _ _ Ht).
Qed.

(** [trim] removes a run of whitespace at each end, and what is left
    neither starts nor ends with whitespace. *)
Lemma trim_spec (s : jsstring) :
  exists l r,
    s = l ++ trim s ++ r
    /\ Forall (fun c => is_space c = true) l
    /\ Forall (fun c => is_space c = true) r
    /\ (forall c t, trim s = c :: t -> is_space c = false)
    /\ (forall t c, trim s = t ++ [c] -> is_space c = false).
Proof.
  unfold trim.
  destruct (trimStart_spec s) as (l & El & Hl & Hh).
  destruct (trimEnd_spec (trimStart s)) as (r & Er & Hr & Hlast).
  exists l, r. split; [now rewrite <- Er|]. split; [exact Hl|]. split; [exact Hr|].
  split; [|exact Hlast].
  intros c t Ht. apply (Hh c (t ++ r)). rewrite Er at 1. now rewrite Ht.
Qed.

End Strings.

(* ================================================================== *)
(** ** The regular expression is the forward scanner *)
(* ================================================================== *)

Section RegexAsScanner.
Import Scanner.

Lemma any_true (c : char) : any c = true.
Proof. unfold any. now destruct (is_space c). Qed.

Lemma word_not_newline (a : char) : is_word a = true -> N.eqb a newline = false.
Proof.
  intros H. destruct (N.eqb_spec a newline) as [->|]; [discriminate H|reflexivity].
Qed.

Lemma matcher_closer (x : MatchState) (rest : jsstring) :
  matcher closer x rest final
  = if prefixb fence rest then Some (advance (advance (advance x))) else None.
Proof.
  unfold fence.
  destruct rest as [|a [|b [|c r]]]; cbn [matcher closer prefixb];
    rewrite ?(N.eqb_sym backtick);
    try reflexivity;
    repeat (destruct (N.eqb _ backtick); cbn [andb]; try reflexivity).
Qed.

Lemma find_fence_eq (s : jsstring) :
  find_fence s =
  if prefixb fence s then Some ([], skipn 3 s)
  else match s with
       | [] => None
       | c :: s' =>
           match find_fence s' with
           | Some (b, r) => Some (c :: b, r)
           | None => None
           end
       end.
Proof. destruct s; reflexivity. Qed.

Lemma star_lazy_eq p x rest c :
  star_lazy p x rest c =
  match c x rest with
  | Some y => Some y
  | None =>
      match rest with
      | a :: rest' => if p a then star_lazy p (advance x) rest' c else None
      | [] => None
      end
  end.
Proof. destruct rest; reflexivity. Qed.

Lemma star_lazy_body (start : Z) caps (rest : jsstring) : forall e,
  star_lazy any (mkState e caps) rest
    (fun y r => matcher closer (set_capture 2 (start, endIndex y) y) r final)
  = match find_fence rest with
    | Some (b, _) => Some (close_state start (e + len b) caps)
    | None => None
    end.
Proof.
  induction rest as [|a rest IH]; intros e;
    rewrite star_lazy_eq, matcher_closer, find_fence_eq.
  - reflexivity.
  - destruct (prefixb fence (a :: rest)).
    + cbn [endIndex]. unfold close_state. rewrite len_nil, Z.add_0_r. reflexivity.
    + rewrite any_true. unfold advance at 1. cbn [endIndex captures].
      rewrite IH. destruct (find_fence rest) as [[b r]|]; [|reflexivity].
      f_equal. unfold close_state. rewrite len_cons.
      replace (e + 1 + len b) with (e + (1 + len b)) by lia. reflexivity.
Qed.

Lemma matcher_body (y : MatchState) (r : jsstring) :
  matcher body_regex y r final =
  match r with
  | a :: r' =>
      if N.eqb a newline then
        match find_fence r' with
        | Some (b, _) =>
            Some (close_state (endIndex y + 1) (endIndex y + 1 + len b) (captures y))
        | None => None
        end
      else None
  | [] => None
  end.
Proof.
  destruct r as [|a r]; [reflexivity|].
  cbn [matcher body_regex]. destruct (N.eqb a newline); [|reflexivity].
  change (matcher closer) with (matcher closer).
  destruct y as [e caps]. unfold advance at 1. cbn [endIndex captures].
  exact (star_lazy_body (e + 1) caps r (e + 1)).
Qed.

Lemma span_word_eq (s : jsstring) :
  span_word s =
  match s with
  | c :: s' =>
      if is_word c then let (w, r) := span_word s' in (c :: w, r) else ([], s)
  | [] => ([], [])
  end.
Proof. destruct s; reflexivity. Qed.

(** Greedy iteration followed by something that refuses a further
    character of the class: no backtracking can help. *)
Lemma star_greedy_span (c : Continuation) :
  (forall y a r, is_word a = true -> c y (a :: r) = None) ->
  forall rest e caps,
    star_greedy is_word (mkState e caps) rest c
    = c (mkState (e + len (fst (span_word rest))) caps) (snd (span_word rest)).
Proof.
  intros Hc. induction rest as [|a rest IH]; intros e caps.
  - cbn. now rewrite Z.add_0_r.
  - cbn [star_greedy]. rewrite span_word_eq.
    destruct (is_word a) eqn:Ha.
    + unfold advance. cbn [endIndex captures]. rewrite IH.
      destruct (span_word rest) as [w r]. cbn [fst snd].
      rewrite len_cons.
      replace (e + 1 + len w) with (e + (1 + len w)) by lia.
      destruct (c _ r) eqn:E; [reflexivity|].
      now apply Hc.
    + cbn [fst snd]. now rewrite len_nil, Z.add_0_r.
Qed.

Lemma matcher_tag (e : Z) caps (r1 : jsstring) :
  matcher (Seq (Opt (Group 1 (Plus is_word))) body_regex) (mkState e caps) r1 final
  = matcher body_regex (tagged e caps (fst (span_word r1))) (snd (span_word r1)) final.
Proof.
  cbn [matcher endIndex].
  set (k := fun (y : MatchState) (rest' : jsstring) =>
              if endIndex (set_capture 1 (e, endIndex y) y) =? e then None
              else matcher body_regex (set_capture 1 (e, endIndex y) y) rest' final).
  assert (Hk : forall y a r, is_word a = true -> k y (a :: r) = None).
  { intros y a r Ha. unfold k. destruct (_ =? e); [reflexivity|].
    rewrite matcher_body. now rewrite (word_not_newline a Ha). }
  rewrite span_word_eq. destruct r1 as [|a r1]; [reflexivity|].
  destruct (is_word a) eqn:Ha; [|reflexivity].
  unfold advance. cbn [endIndex captures].
  rewrite (star_greedy_span k Hk).
  destruct (span_word r1) as [w r2]. cbn [fst snd tagged].
  rewrite len_cons. unfold k at 1. cbn [set_capture endIndex captures].
  pose proof (len_nonneg w).
  destruct (Z.eqb_spec (e + 1 + len w) e); [lia|].
  replace (e + 1 + len w) with (e + (1 + len w)) by lia.
  destruct (matcher body_regex _ r2 final) eqn:E; [reflexivity|].
  rewrite matcher_body. now rewrite (word_not_newline a Ha).
Qed.

Lemma matcher_chr (ch : char) (r : regex) x rest k :
  matcher (Seq (Chr ch) r) x rest k
  = match rest with
    | a :: rest' => if N.eqb a ch then matcher r (advance x) rest' k else None
    | [] => None
    end.
Proof. destruct rest; reflexivity. Qed.

(** One attempt of the pattern at one offset is one attempt of the
    scanner there. *)
Lemma matcher_block (i : Z) (rest : jsstring) :
  matcher codeBlockRegex (mkState i no_captures) rest final
  = match block_at rest with
    | Some (w, b, _) => Some (block_state i w b)
    | None => None
    end.
Proof.
  change codeBlockRegex with
    (Seq (Chr backtick) (Seq (Chr backtick) (Seq (Chr backtick)
       (Seq (Opt (Group 1 (Plus is_word))) body_regex)))).
  unfold block_at, fence.
  destruct rest as [|a [|b [|c r]]]; rewrite !matcher_chr; cbn [prefixb];
    rewrite ?(N.eqb_sym backtick); try reflexivity;
    repeat (destruct (N.eqb _ backtick); rewrite ?matcher_chr; cbn [andb];
            try reflexivity).
  unfold advance. cbn [endIndex captures skipn].
  rewrite matcher_tag, matcher_body.
  replace (i + 1 + 1 + 1) with (i + 3) by lia.
  destruct (span_word r) as [w r2]. cbn [fst snd].
  destruct r2 as [|d r2]; [reflexivity|].
  destruct (N.eqb d newline); [|reflexivity].
  destruct (find_fence r2) as [[bd after]|]; reflexivity.
Qed.

Lemma block_state_end (i : Z) (w b : jsstring) :
  endIndex (block_state i w b) = i + len (source (FenceChunk w b)).
Proof.
  unfold block_state, close_state, tagged, source, fence, advance.
  rewrite !len_app, !len_cons, len_nil.
  destruct w; cbn [endIndex set_capture captures]; rewrite ?len_cons, ?len_nil; lia.
Qed.

Lemma block_state_tag (i : Z) (w b : jsstring) :
  captures (block_state i w b) 1%nat
  = match w with [] => None | _ :: _ => Some (i + 3, i + 3 + len w) end.
Proof. destruct w; reflexivity. Qed.

Lemma block_state_body (i : Z) (w b : jsstring) :
  captures (block_state i w b) 2%nat
  = Some (i + 3 + len w + 1, i + 3 + len w + 1 + len b).
Proof.
  unfold block_state, close_state, tagged, advance.
  destruct w; cbn [endIndex set_capture captures Nat.eqb];
    rewrite ?len_nil, ?len_cons; do 2 f_equal; lia.
Qed.

(** Trying every offset in turn finds the leftmost block. *)
Lemma exec_loop_first_block (rest : jsstring) : forall i,
  exec_loop codeBlockRegex i rest
  = match first_block rest with
    | Some (t, w, b, _) => Some (i + len t, block_state (i + len t) w b)
    | None => None
    end.
Proof.
  induction rest as [|a rest IH]; intros i.
  - cbn [exec_loop first_block].
    change (fun (y : MatchState) (_ : jsstring) => Some y) with final.
    rewrite matcher_block. cbn. reflexivity.
  - cbn [exec_loop first_block].
    change (fun (y : MatchState) (_ : jsstring) => Some y) with final.
    rewrite matcher_block.
    destruct (block_at (a :: rest)) as [[[w b] after]|].
    + rewrite len_nil, Z.add_0_r. reflexivity.
    + rewrite IH. destruct (first_block rest) as [[[[t w] b] after]|]; [|reflexivity].
      rewrite len_cons. replace (i + 1 + len t) with (i + (1 + len t)) by lia.
      reflexivity.
Qed.

End RegexAsScanner.

(* ================================================================== *)
(** ** What the scanner finds *)
(* ================================================================== *)

Section ScannerFacts.
Import Scanner.

Lemma occurs_at_prefixb (p s : jsstring) :
  occurs_at p s 0 <-> prefixb p s = true.
Proof.
  rewrite prefixb_iff. split.
  - intros (pre & post & -> & Hl). destruct pre; [|discriminate]. now exists post.
  - intros [r ->]. now exists [], r.
Qed.

Lemma occurs_at_cons (p : jsstring) (a : char) (s : jsstring) (k : nat) :
  occurs_at p (a :: s) (S k) <-> occurs_at p s k.
Proof.
  split.
  - intros (pre & post & E & Hl). destruct pre as [|a' pre]; [discriminate|].
    cbn in E, Hl. injection E as -> ->. exists pre, post. split; [reflexivity|lia].
  - intros (pre & post & -> & Hl). exists (a :: pre), post. cbn. split; [reflexivity|lia].
Qed.

Lemma occurs_at_skipn (p s : jsstring) (k : nat) :
  occurs_at p s k <-> ((k <= length s)%nat /\ prefixb p (skipn k s) = true).
Proof.
  revert s. induction k as [|k IH]; intros s.
  - rewrite occurs_at_prefixb. cbn. intuition lia.
  - destruct s as [|a s].
    + split.
      * intros (pre & post & E & Hl). destruct pre; discriminate.
      * cbn. intros [H _]. lia.
    + rewrite occurs_at_cons, IH. cbn. intuition lia.
Qed.

Lemma prefixb_fence_app (s t : jsstring) :
  prefixb fence s = true -> prefixb fence (s ++ t) = true.
Proof.
  rewrite !prefixb_iff. intros [r ->]. exists (r ++ t). now rewrite app_assoc.
Qed.

Lemma find_fence_sound (s : jsstring) : forall b after,
  find_fence s = Some (b, after) ->
  s = b ++ fence ++ after /\ first_closer b.
Proof.
  induction s as [|c s IH]; intros b after; rewrite find_fence_eq.
  - cbn. discriminate.
  - destruct (prefixb fence (c :: s)) eqn:P.
    + intros [= <- <-]. split.
      * now apply prefixb_split in P.
      * intros k Hk. cbn in Hk. lia.
    + destruct (find_fence s) as [[b' r]|] eqn:F; [|discriminate].
      intros [= <- <-]. destruct (IH _ _ eq_refl) as [-> Hfc]. split; [reflexivity|].
      intros [|k] Hk Hocc.
      * apply occurs_at_prefixb in Hocc.
        apply (prefixb_fence_app _ r) in Hocc.
        cbn [app] in Hocc, P. rewrite <- !app_assoc in Hocc.
        cbn [app] in Hocc. congruence.
      * cbn [app] in Hocc. apply occurs_at_cons in Hocc.
        apply (Hfc k); [cbn in Hk; lia|assumption].
Qed.

Lemma span_word_sound (s : jsstring) : forall w r,
  span_word s = (w, r) ->
  s = w ++ r /\ Forall (fun ch => is_word ch = true) w.
Proof.
  induction s as [|c s IH]; intros w r; rewrite span_word_eq.
  - intros [= <- <-]. now split.
  - destruct (is_word c) eqn:W.
    + destruct (span_word s) as [w' r'] eqn:E. intros [= <- <-].
      destruct (IH _ _ eq_refl) as [-> Hw]. split; [reflexivity|].
      now constructor.
    + intros [= <- <-]. now split.
Qed.

Lemma block_at_sound (s w b after : jsstring) :
  block_at s = Some (w, b, after) ->
  s = source (FenceChunk w b) ++ after /\ wf_chunk (FenceChunk w b).
Proof.
  unfold block_at. destruct (prefixb fence s) eqn:P; [|discriminate].
  apply prefixb_split in P. cbn [length fence] in P.
  destruct (span_word (skipn 3 s)) as [w' r] eqn:E.
  destruct (span_word_sound _ _ _ E) as [Hs Hw].
  destruct r as [|c r]; [discriminate|].
  destruct (N.eqb_spec c newline) as [->|]; [|discriminate].
  destruct (find_fence r) as [[b' after']|] eqn:F; [|discriminate].
  intros [= <- <- <-].
  destruct (find_fence_sound _ _ _ F) as [-> Hfc].
  split; [|now split].
  rewrite P, Hs. cbn [source]. now rewrite <- !app_assoc.
Qed.

Lemma first_block_sound (s : jsstring) : forall t w b after,
  first_block s = Some (t, w, b, after) ->
  s = t ++ source (FenceChunk w b) ++ after /\ wf_chunk (FenceChunk w b).
Proof.
  induction s as [|c s IH]; intros t w b after; cbn [first_block].
  - destruct (block_at []) as [[[w' b'] a']|] eqn:B; [|discriminate].
    intros [= <- <- <- <-]. now apply block_at_sound.
  - destruct (block_at (c :: s)) as [[[w' b'] a']|] eqn:B.
    + intros [= <- <- <- <-]. now apply block_at_sound.
    + destruct (first_block s) as [[[[t' w'] b'] a']|] eqn:F; [|discriminate].
      intros [= <- <- <- <-]. destruct (IH _ _ _ _ eq_refl) as [-> Hwf].
      now split.
Qed.

Lemma sources_cons (c : chunk) (cs : list chunk) :
  sources (c :: cs) = source c ++ sources cs.
Proof. reflexivity. Qed.

Lemma sources_app (cs ds : list chunk) :
  sources (cs ++ ds) = sources cs ++ sources ds.
Proof. unfold sources. now rewrite map_app, concat_app. Qed.

(** The chunks of a scan, put end to end, are the input. *)
Lemma scans_sources (s : jsstring) (cs : list chunk) :
  scans s cs -> sources cs = s.
Proof.
  induction 1 as [|t Ht Hn|s w b after cs Hf Hs IH|s t w b after cs Ht Hf Hs IH].
  - reflexivity.
  - cbn. apply app_nil_r.
  - apply first_block_sound in Hf. destruct Hf as [-> _].
    rewrite sources_cons, IH. reflexivity.
  - apply first_block_sound in Hf. destruct Hf as [-> _].
    rewrite !sources_cons, IH. reflexivity.
Qed.

Lemma scans_wf (s : jsstring) (cs : list chunk) :
  scans s cs -> Forall wf_chunk cs.
Proof.
  induction 1 as [|t Ht Hn|s w b after cs Hf Hs IH|s t w b after cs Ht Hf Hs IH].
  - constructor.
  - repeat constructor. exact Ht.
  - apply first_block_sound in Hf. destruct Hf as [_ Hwf]. now constructor.
  - apply first_block_sound in Hf. destruct Hf as [_ Hwf].
    constructor; [exact Ht|]. now constructor.
Qed.

Lemma scans_alternating (s : jsstring) (cs : list chunk) :
  scans s cs -> alternating cs.
Proof.
  induction 1 as [|t Ht Hn|s w b after cs Hf Hs IH|s t w b after cs Ht Hf Hs IH].
  - exact I.
  - cbn. auto.
  - cbn [alternating]. split; [|exact IH]. now destruct cs.
  - cbn [alternating]. split; [reflexivity|]. split; [|exact IH]. now destruct cs.
Qed.

End ScannerFacts.

(* ================================================================== *)
(** ** parseMessage follows the scanner *)
(* ================================================================== *)

Section ParserAsScanner.
Import Scanner.

Lemma slice_at (s p m q : jsstring) (a b : Z) :
  s = p ++ m ++ q -> a = len p -> b = len p + len m -> slice s a b = m.
Proof. intros -> -> ->. apply slice_app_mid. Qed.

(** [exec] on the compiled pattern, when [lastIndex] is the length of
    what has been consumed: no block in the rest, no match. *)
Lemma exec_none (pre rest : jsstring) :
  first_block rest = None ->
  exec codeBlockRegex (len pre) (pre ++ rest) = (None, 0).
Proof.
  intros F. unfold exec. rewrite len_app. pose proof (len_nonneg rest).
  destruct (Z.ltb_spec (len pre + len rest) (len pre)); [lia|].
  rewrite slice_from_app, exec_loop_first_block, F. reflexivity.
Qed.

(** ... and a block in the rest is the match. *)
Lemma exec_some (pre rest t w b after : jsstring) :
  first_block rest = Some (t, w, b, after) ->
  exists m,
    exec codeBlockRegex (len pre) (pre ++ rest)
    = (Some m, len pre + len t + len (source (FenceChunk w b)))
    /\ index m = len pre + len t
    /\ matched m = source (FenceChunk w b)
    /\ group m 1%nat = match w with [] => None | _ :: _ => Some w end
    /\ group m 2%nat = Some b.
Proof.
  intros F. unfold exec. rewrite len_app. pose proof (len_nonneg rest).
  destruct (Z.ltb_spec (len pre + len rest) (len pre)); [lia|].
  rewrite slice_from_app, exec_loop_first_block, F.
  apply first_block_sound in F. destruct F as [-> _].
  eexists. split; [rewrite block_state_end; reflexivity|].
  cbn [index matched group]. split; [reflexivity|]. split; [|split].
  - rewrite ?block_state_end.
    apply (slice_at _ (pre ++ t) (source (FenceChunk w b)) after).
    + now rewrite <- !app_assoc.
    + now rewrite len_app.
    + rewrite len_app. lia.
  - rewrite block_state_tag. destruct w as [|c w]; [reflexivity|]. f_equal.
    apply (slice_at _ (pre ++ t ++ fence) (c :: w) ([newline] ++ b ++ fence ++ after)).
    + cbn [source]. now rewrite <- !app_assoc.
    + rewrite !len_app, ?len_cons; change (len fence) with 3; rewrite ?len_cons, ?len_nil; lia.
    + rewrite !len_app, ?len_cons; change (len fence) with 3; rewrite ?len_cons, ?len_nil; lia.
  - rewrite block_state_body. f_equal.
    apply (slice_at _ (pre ++ t ++ fence ++ w ++ [newline]) b (fence ++ after)).
    + cbn [source]. now rewrite <- !app_assoc.
    + rewrite !len_app, ?len_cons; change (len fence) with 3; rewrite ?len_cons, ?len_nil; lia.
    + rewrite !len_app, ?len_cons; change (len fence) with 3; rewrite ?len_cons, ?len_nil; lia.
Qed.

Lemma scans_tail (tail : jsstring) :
  first_block tail = None -> scans tail (tail_chunk tail).
Proof.
  intros F. destruct tail as [|c tail]; [constructor|].
  apply scans_text; [discriminate|assumption].
Qed.

Lemma source_fence_length (w b : jsstring) :
  (0 < length (source (FenceChunk w b)))%nat.
Proof. cbn. lia. Qed.

(** The loop consumes the blocks of the scan, one per iteration, and
    stops in front of the text that holds no further block. *)
Lemma parse_loop_scans (fuel : nat) : forall pre rest parts,
  (length rest < fuel)%nat ->
  exists cs tail,
    parse_loop fuel (pre ++ rest) (len pre) (len pre) parts
    = Some (len pre + len (sources cs), parts ++ map part_of cs)
    /\ scans rest (cs ++ tail_chunk tail)
    /\ rest = sources cs ++ tail.
Proof.
  induction fuel as [|fuel IH]; intros pre rest parts Hfuel; [lia|].
  cbn [parse_loop].
  destruct (first_block rest) as [[[[t w] b] after]|] eqn:F.
  - destruct (exec_some pre rest _ _ _ _ F) as (m & -> & Hi & Hm & Hg1 & Hg2).
    rewrite Hi, Hm, Hg1, Hg2.
    pose proof (first_block_sound _ _ _ _ _ F) as [Hrest _].
    assert (Hlen : (length after < fuel)%nat).
    { rewrite Hrest in Hfuel. rewrite !length_app in Hfuel.
      pose proof (source_fence_length w b). lia. }
    set (pre' := pre ++ t ++ source (FenceChunk w b)).
    assert (Hpre' : len pre + len t + len (source (FenceChunk w b)) = len pre').
    { unfold pre'. rewrite !len_app. lia. }
    assert (Hmsg : pre ++ rest = pre' ++ after).
    { unfold pre'. rewrite Hrest. now rewrite <- !app_assoc. }
    rewrite Hpre', Hmsg.
    match goal with
    | |- context [parse_loop fuel _ _ _ ?p] =>
        destruct (IH pre' after p Hlen) as (cs & tail & -> & Hsc & Hafter)
    end.
    assert (Hslice : slice (pre' ++ after) (len pre) (len pre + len t) = t).
    { apply (slice_at _ pre t (source (FenceChunk w b) ++ after));
        [|reflexivity|reflexivity].
      unfold pre'. now rewrite <- !app_assoc. }
    rewrite Hslice.
    assert (Hor : or_else match w with [] => None | _ :: _ => Some w end plaintext
                  = match w with [] => plaintext | _ :: _ => w end)
      by now destruct w.
    rewrite Hor.
    destruct t as [|c t].
    + exists (FenceChunk w b :: cs), tail.
      rewrite len_nil, Z.add_0_r, Z.ltb_irrefl.
      split; [|split].
      * f_equal. f_equal.
        -- rewrite sources_cons, len_app. rewrite <- Hpre', len_nil. lia.
        -- cbn [map part_of]. now rewrite <- app_assoc.
      * cbn [app]. eapply scans_fence; eassumption.
      * rewrite sources_cons, Hrest, Hafter. cbn [app]. now rewrite <- app_assoc.
    + exists (TextChunk (c :: t) :: FenceChunk w b :: cs), tail.
      pose proof (len_nonneg t).
      destruct (Z.ltb_spec (len pre) (len pre + len (c :: t)));
        [|rewrite len_cons in *; lia].
      split; [|split].
      * f_equal. f_equal.
        -- rewrite !sources_cons, !len_app. rewrite <- Hpre'. cbn [source]. lia.
        -- cbn [map part_of]. rewrite <- !app_assoc. reflexivity.
      * cbn [app]. eapply scans_text_fence; [discriminate|eassumption|eassumption].
      * rewrite !sources_cons, Hrest, Hafter. cbn [source].
        now rewrite <- !app_assoc.
  - rewrite (exec_none pre rest F).
    exists [], rest. cbn [sources map concat app]. rewrite len_nil, Z.add_0_r, app_nil_r.
    split; [reflexivity|]. split; [|reflexivity]. now apply scans_tail.
Qed.

(** parseMessage returns, and what it returns is the scan of its input
    with every chunk rendered as a segment. *)
Theorem parseMessage_scans (s : jsstring) :
  exists cs, parseMessage s = Some (map part_of cs) /\ scans s cs.
Proof.
  unfold parseMessage.
  destruct (parse_loop_scans (S (length s)) [] s [] (Nat.lt_succ_diag_r _))
    as (cs & tail & E & Hsc & Hs).
  change (len []) with 0 in E. cbn [app] in E. rewrite E. cbn [app].
  exists (cs ++ tail_chunk tail). split; [|assumption].
  f_equal. rewrite Z.add_0_l.
  assert (Hlen : len s = len (sources cs) + len tail) by (rewrite Hs at 1; apply len_app).
  pose proof (len_nonneg tail).
  rewrite map_app. destruct tail as [|c tail].
  - rewrite len_nil in Hlen. destruct (Z.ltb_spec (len (sources cs)) (len s)); [lia|].
    cbn. now rewrite app_nil_r.
  - rewrite len_cons in Hlen. pose proof (len_nonneg tail).
    destruct (Z.ltb_spec (len (sources cs)) (len s)); [|lia].
    cbn [tail_chunk map part_of]. do 3 f_equal.
    rewrite Hs at 1. apply slice_from_app.
Qed.

End ParserAsScanner.

(* ================================================================== *)
(** ** slice, indexOf and startsWith on offsets inside the string *)
(* ================================================================== *)

Section Offsets.

Lemma slice_nat (s : jsstring) (a b : nat) :
  (a <= b <= length s)%nat ->
  slice s (Z.of_nat a) (Z.of_nat b) = firstn (b - a) (skipn a s).
Proof.
  intros H. unfold slice, len.
  destruct (Z.ltb_spec (Z.of_nat a) 0); [lia|].
  destruct (Z.ltb_spec (Z.of_nat b) 0); [lia|].
  rewrite !Z.min_l by lia. f_equal; [lia|]. f_equal. lia.
Qed.

Lemma slice_from_nat (s : jsstring) (a : nat) :
  (a <= length s)%nat -> slice_from s (Z.of_nat a) = skipn a s.
Proof.
  intros H. unfold slice_from, len. rewrite slice_nat by lia.
  apply firstn_all2. rewrite length_skipn. lia.
Qed.

Lemma firstn_extend (s : jsstring) (n d : nat) :
  firstn n s ++ firstn d (skipn n s) = firstn (n + d) s.
Proof.
  revert s. induction n as [|n IH]; intros s; [reflexivity|].
  destruct s as [|c s]; cbn.
  - now rewrite firstn_nil.
  - now rewrite IH.
Qed.

(** The search loop returns the least offset of an occurrence, counted
    from [k], or -1 when [search] does not occur. *)
Lemma indexOf_loop_spec (search rest : jsstring) : forall k, 0 <= k ->
  (indexOf_loop search rest k = -1 /\ forall j, ~ occurs_at search rest j)
  \/ (exists j, indexOf_loop search rest k = k + Z.of_nat j
                /\ occurs_at search rest j
                /\ forall j', (j' < j)%nat -> ~ occurs_at search rest j').
Proof.
  induction rest as [|c rest IH]; intros k Hk; cbn [indexOf_loop].
  - destruct (prefixb search []) eqn:P.
    + right. exists 0%nat. rewrite Z.add_0_r. split; [reflexivity|].
      split; [now apply occurs_at_prefixb|]. intros j' Hj'. lia.
    + left. split; [reflexivity|]. intros j Hj.
      apply occurs_at_skipn in Hj. destruct Hj as [Hl Hp]. cbn in Hl.
      assert (j = 0%nat) by lia. subst j. cbn in Hp. congruence.
  - destruct (prefixb search (c :: rest)) eqn:P.
    + right. exists 0%nat. rewrite Z.add_0_r. split; [reflexivity|].
      split; [now apply occurs_at_prefixb|]. intros j' Hj'. lia.
    + destruct (IH (k + 1)) as [[E Hno]|(j & E & Hocc & Hmin)]; [lia| |].
      * left. split; [exact E|]. intros [|j] Hj.
        -- apply occurs_at_prefixb in Hj. congruence.
        -- apply occurs_at_cons in Hj. now apply (Hno j).
      * right. exists (S j). split; [rewrite E; lia|].
        split; [now apply occurs_at_cons|].
        intros [|j'] Hj' Hocc'.
        -- apply occurs_at_prefixb in Hocc'. congruence.
        -- apply occurs_at_cons in Hocc'. apply (Hmin j'); [lia|assumption].
Qed.

Lemma occurs_at_shift (p s : jsstring) (n j : nat) :
  (n <= length s)%nat ->
  occurs_at p (skipn n s) j <-> occurs_at p s (n + j).
Proof.
  intros Hn. rewrite !occurs_at_skipn, skipn_skipn, length_skipn.
  replace (j + n)%nat with (n + j)%nat by lia. intuition lia.
Qed.

Lemma occurs_at_bound (p s : jsstring) (k : nat) :
  occurs_at p s k -> (k + length p <= length s)%nat.
Proof.
  intros (pre & post & -> & <-). rewrite !length_app. lia.
Qed.

Lemma indexOf_fence_3 (s : jsstring) :
  (3 <= length s)%nat ->
  (indexOf s fence 3 = -1 /\ forall k, (3 <= k)%nat -> ~ occurs_at fence s k)
  \/ (exists k, indexOf s fence 3 = Z.of_nat k /\ closing_at s k).
Proof.
  intros Hl. unfold indexOf, len.
  rewrite Z.max_l, Z.min_l by lia. change (Z.to_nat 3) with 3%nat.
  destruct (indexOf_loop_spec fence (skipn 3 s) 3) as [[E Hno]|(j & E & Hocc & Hmin)];
    [lia| |].
  - left. split; [exact E|]. intros k Hk Hocc.
    apply (Hno (k - 3)%nat). apply occurs_at_shift; [lia|].
    now replace (3 + (k - 3))%nat with k by lia.
  - right. exists (3 + j)%nat. split; [rewrite E; lia|].
    split; [lia|]. split; [now apply occurs_at_shift|].
    intros j' Hj' Hocc'. apply (Hmin (j' - 3)%nat); [lia|].
    apply occurs_at_shift; [lia|].
    now replace (3 + (j' - 3))%nat with j' by lia.
Qed.

End Offsets.

(* ================================================================== *)
(** ** The revealer *)
(* ================================================================== *)

Section Revealer.

Variable content : jsstring.

(** The two ways the timeout callback can go. *)
Lemma onTimeout_cases (n : nat) (prev : jsstring) :
  (n < length content)%nat ->
  let remainder := skipn n content in
  (exists k, occurs_at fence remainder 0 /\ closing_at remainder k
             /\ onTimeout content (Z.of_nat n) prev
                = (prev ++ firstn (k + 3) remainder, Z.of_nat (n + (k + 3))))
  \/ ((~ occurs_at fence remainder 0
       \/ forall k, (3 <= k)%nat -> ~ occurs_at fence remainder k)
      /\ onTimeout content (Z.of_nat n) prev
         = (prev ++ firstn (Nat.min 3 (length content - n)) remainder,
            Z.of_nat (n + Nat.min 3 (length content - n)))).
Proof.
  intros Hn remainder.
  assert (ByChars :
    (prev ++ slice content (Z.of_nat n)
                   (Z.of_nat n + Z.min 3 (len content - Z.of_nat n)),
     Z.of_nat n + Z.min 3 (len content - Z.of_nat n))
    = (prev ++ firstn (Nat.min 3 (length content - n)) remainder,
       Z.of_nat (n + Nat.min 3 (length content - n)))).
  { unfold len.
    replace (Z.min 3 (Z.of_nat (length content) - Z.of_nat n))
      with (Z.of_nat (Nat.min 3 (length content - n))) by lia.
    rewrite <- Nat2Z.inj_add. rewrite slice_nat by lia.
    replace (n + Nat.min 3 (length content - n) - n)%nat
      with (Nat.min 3 (length content - n)) by lia.
    reflexivity. }
  unfold onTimeout. cbv zeta. rewrite ByChars. rewrite slice_from_nat by lia.
  fold remainder. unfold startsWith.
  destruct (prefixb fence remainder) eqn:P.
  - assert (Hocc : occurs_at fence remainder 0) by now apply occurs_at_prefixb.
    pose proof (occurs_at_bound _ _ _ Hocc) as Hl. cbn [length fence] in Hl.
    destruct (indexOf_fence_3 remainder) as [[E Hno]|(k & E & Hk)]; [lia| |].
    + right. rewrite E. cbn [Z.eqb negb]. split; [right; exact Hno|reflexivity].
    + left. exists k. rewrite E.
      destruct (Z.eqb_spec (Z.of_nat k) (-1)); [lia|]. cbn [negb].
      split; [exact Hocc|]. split; [exact Hk|].
      destruct Hk as (_ & Hoccx & _).
      pose proof (occurs_at_bound _ _ _ Hoccx) as Hb. cbn [length fence] in Hb.
      replace (Z.of_nat k + 3) with (Z.of_nat (k + 3)) by lia.
      change (slice remainder 0) with (slice remainder (Z.of_nat 0)).
      rewrite (slice_nat remainder 0 (k + 3)) by lia.
      rewrite Nat.sub_0_r. cbn [skipn]. f_equal.
      unfold len. rewrite length_firstn. lia.
  - right. split; [|reflexivity]. left. intros H.
    apply occurs_at_prefixb in H. congruence.
Qed.

(** The callback always moves the cursor forward, never past the end,
    and extends a displayed prefix to a longer displayed prefix. *)
Lemma onTimeout_prefix (n : nat) :
  (n < length content)%nat ->
  exists m, (n < m <= length content)%nat
            /\ onTimeout content (Z.of_nat n) (firstn n content)
               = (firstn m content, Z.of_nat m).
Proof.
  intros Hn.
  destruct (onTimeout_cases n (firstn n content) Hn)
    as [(k & _ & (_ & Hocc & _) & ->)|[_ ->]].
  - apply occurs_at_bound in Hocc. rewrite length_skipn in Hocc.
    cbn [length fence] in Hocc.
    exists (n + (k + 3))%nat. split; [lia|]. now rewrite firstn_extend.
  - exists (n + Nat.min 3 (length content - n))%nat. split; [lia|].
    now rewrite firstn_extend.
Qed.

Lemma effect_consistent (n : nat) (paused : bool) (pending : bool) :
  (n <= length content)%nat ->
  consistent content (effect content
                (mkComponent (firstn n content) (Z.of_nat n) paused false pending 0)).
Proof.
  intros Hn. exists n. unfold effect, len. cbn [currentIndex].
  destruct (Nat.ltb_spec n (length content));
    (destruct (Z.ltb_spec (Z.of_nat n) (Z.of_nat (length content))); [|]; try lia);
    cbn; repeat split; try lia; try reflexivity.
Qed.

Lemma mount_consistent : consistent content (mount content).
Proof. apply (effect_consistent 0 false false). lia. Qed.

Lemma tick_consistent (c : Component) :
  consistent content c -> consistent content (tick content c).
Proof.
  intros Hc. pose proof Hc as (n & Hn & Hi & Hd & Ht & Hcm & Hnt).
  unfold tick. rewrite Ht. destruct (Nat.ltb_spec n (length content)) as [Hlt|]; [|exact Hc].
  rewrite Hi, Hd. destruct (onTimeout_prefix n Hlt) as (m & Hm & ->).
  unfold commit. cbn [currentIndex isPaused]. rewrite Hi.
  destruct (Z.eqb_spec (Z.of_nat n) (Z.of_nat m)); [lia|]. cbn [andb].
  rewrite Hcm, Hnt. cbn [negb]. apply effect_consistent. lia.
Qed.

Lemma firstn_length_all (s : jsstring) : firstn (length s) s = s.
Proof. apply firstn_all. Qed.

Lemma click_consistent (c : Component) :
  consistent content c -> consistent content (handleClick content c).
Proof.
  intros Hc. pose proof Hc as (n & Hn & Hi & Hd & Ht & Hcm & Hnt).
  unfold handleClick, len. rewrite Hi.
  destruct (Z.ltb_spec (Z.of_nat n) (Z.of_nat (length content))); [|exact Hc].
  unfold commit. cbn [currentIndex isPaused]. rewrite Hi.
  destruct (Z.eqb_spec (Z.of_nat n) (Z.of_nat (length content))); [lia|]. cbn [andb].
  rewrite Hcm, Hnt. destruct (Nat.ltb_spec n (length content)); [|lia]. cbn [negb].
  pose proof (effect_consistent (length content) true (timerPending c) (le_n _)) as HH.
  rewrite firstn_length_all in HH. exact HH.
Qed.

Lemma step_consistent (c : Component) (e : Event) :
  consistent content c -> consistent content (step content c e).
Proof. destruct e; [apply tick_consistent|apply click_consistent]. Qed.

Lemma fold_consistent (events : list Event) : forall c,
  consistent content c -> consistent content (fold_left (step content) events c).
Proof.
  induction events as [|e events IH]; intros c Hc; [exact Hc|].
  cbn [fold_left]. apply IH. now apply step_consistent.
Qed.

Lemma run_consistent (events : list Event) : consistent content (run content events).
Proof. apply fold_consistent, mount_consistent. Qed.

End Revealer.

(* ================================================================== *)
(** ** Segments of a scan *)
(* ================================================================== *)

Section Segments.

Lemma alternating_app_r (cs ds : list chunk) :
  alternating (cs ++ ds) -> alternating ds.
Proof.
  induction cs as [|c cs IH]; [trivial|].
  cbn [app alternating]. intros [_ H]. now apply IH.
Qed.

Lemma part_of_text (c : chunk) : type (part_of c) = text <-> is_text c = true.
Proof. destruct c; cbn; split; congruence. Qed.

Lemma alternating_no_adjacent (cs : list chunk) :
  alternating cs -> no_adjacent_text (map part_of cs).
Proof.
  intros Halt pre a b post E Ha Hb.
  apply map_eq_app in E. destruct E as (cs1 & cs2 & -> & _ & E).
  apply map_eq_cons in E. destruct E as (c & cs3 & -> & <- & E).
  apply map_eq_cons in E. destruct E as (d & cs4 & -> & <- & _).
  apply alternating_app_r in Halt. cbn [alternating] in Halt.
  destruct Halt as [H _].
  apply part_of_text in Ha, Hb. rewrite Ha, Hb in H. discriminate.
Qed.

(** A chunk of a decomposition sits inside the decomposed string. *)
Lemma chunk_in_sources (cs : list chunk) (c : chunk) :
  In c cs -> exists pre post, sources cs = pre ++ source c ++ post.
Proof.
  intros H. apply in_split in H. destruct H as (c1 & c2 & ->).
  exists (sources c1), (sources c2).
  now rewrite sources_app, sources_cons.
Qed.

Lemma code_part_from_block (cs : list chunk) (part : MessagePart) :
  Forall wf_chunk cs ->
  In part (map part_of cs) -> type part = code ->
  from_complete_block (sources cs) part.
Proof.
  intros Hwf Hin Hty. apply in_map_iff in Hin. destruct Hin as (c & <- & Hc).
  destruct c as [t|lang body]; [discriminate|].
  destruct (chunk_in_sources _ _ Hc) as (pre & post & E).
  exists pre, lang, body, post. split; [|split; [|reflexivity]].
  - rewrite E. cbn [source]. now rewrite <- !app_assoc.
  - rewrite Forall_forall in Hwf. now apply Hwf.
Qed.

End Segments.

(* ================================================================== *)
(** ** Fences with no closing delimiter *)
(* ================================================================== *)

Section Unterminated.

Lemma prefixb_app_inv (p x y : jsstring) :
  prefixb p (x ++ y) = true -> (length p <= length x)%nat -> prefixb p x = true.
Proof.
  revert x. induction p as [|a p IH]; intros x H Hl; [reflexivity|].
  destruct x as [|b x]; [cbn in Hl; lia|].
  cbn in H |- *. apply andb_true_iff in H. destruct H as [-> H]. cbn.
  apply IH; [assumption|cbn in Hl; lia].
Qed.

Lemma occurs_at_inside (p pre x post : jsstring) (k : nat) :
  occurs_at p (pre ++ x ++ post) (length pre + k) ->
  (k + length p <= length x)%nat ->
  occurs_at p x k.
Proof.
  intros H Hk. apply occurs_at_skipn in H. destruct H as [_ H].
  apply occurs_at_skipn. split; [lia|].
  rewrite skipn_app in H. rewrite skipn_all2 in H by lia. cbn [app] in H.
  replace (length pre + k - length pre)%nat with k in H by lia.
  rewrite skipn_app in H. replace (k - length x)%nat with 0%nat in H by lia.
  cbn [skipn] in H. apply (prefixb_app_inv _ _ _ H).
  rewrite length_skipn. lia.
Qed.

Variable s : jsstring.
Variable i : nat.
Hypothesis no_later_fence : forall j, (i + 3 <= j)%nat -> ~ occurs_at fence s j.

(** With no fence at [i + 3] or later, the closing delimiter of every
    block of a decomposition of [s] starts before [i + 3]. *)
Lemma fence_chunk_closer_before (c1 c2 : list chunk) (lang body : jsstring) :
  sources (c1 ++ FenceChunk lang body :: c2) = s ->
  (length (sources c1) + 4 + length lang + length body <= i + 2)%nat.
Proof.
  intros Hs. rewrite sources_app, sources_cons in Hs. cbn [source] in Hs.
  set (a := length (sources c1)).
  assert (Hclose : occurs_at fence s (a + 4 + length lang + length body)).
  { exists (sources c1 ++ fence ++ lang ++ [newline] ++ body), (sources c2).
    split; [rewrite <- Hs; now rewrite <- !app_assoc|].
    rewrite !length_app. cbn [length fence]. unfold a. lia. }
  destruct (Nat.le_gt_cases (a + 4 + length lang + length body) (i + 2))
    as [|Hgt]; [assumption|].
  exfalso.
  apply (no_later_fence (a + 4 + length lang + length body)%nat);
    [lia|exact Hclose].
Qed.

Lemma sources_snoc_fence (cs : list chunk) (lang body : jsstring) :
  length (sources (cs ++ [FenceChunk lang body]))
  = (length (sources cs) + 4 + length lang + length body + 3)%nat.
Proof.
  rewrite sources_app, sources_cons. cbn [source sources map concat].
  rewrite !length_app. cbn [length fence]. lia.
Qed.

Hypothesis fence_here : occurs_at fence s i.

(** The end of such a decomposition: a text chunk that holds all from
    [i] on, or a last block whose closing delimiter overlaps the fence
    at [i]. *)
Lemma unterminated_tail (cs : list chunk) :
  sources cs = s -> Forall wf_chunk cs -> alternating cs ->
  (exists cs' t,
     cs = cs' ++ [TextChunk (t ++ skipn i s)] /\ sources cs' ++ t = firstn i s)
  \/ (exists cs' lang body rest,
        cs = cs' ++ FenceChunk lang body :: tail_chunk rest
        /\ (i <= length (sources cs') + 4 + length lang + length body + 2)%nat
        /\ (length (sources cs') + 4 + length lang + length body <= i + 2)%nat).
Proof.
  intros Hs Hwf Halt.
  pose proof (occurs_at_bound _ _ _ fence_here) as Hb. cbn [length fence] in Hb.
  assert (Htext : forall cs' t,
            cs = cs' ++ [TextChunk t] -> (length (sources cs') <= i)%nat ->
            exists cs1 t1,
              cs = cs1 ++ [TextChunk (t1 ++ skipn i s)]
              /\ sources cs1 ++ t1 = firstn i s).
  { intros cs' t -> Hlen.
    rewrite sources_app in Hs. cbn [sources map concat source] in Hs.
    rewrite app_nil_r in Hs. fold (sources cs') in Hs.
    exists cs', (firstn (i - length (sources cs')) t). split.
    - do 3 f_equal. rewrite <- Hs at 1. rewrite skipn_app.
      rewrite (skipn_all2 (sources cs')) by lia. cbn [app].
      symmetry. apply firstn_skipn.
    - rewrite <- Hs at 1. rewrite firstn_app.
      rewrite (firstn_all2 (sources cs')) by lia. reflexivity. }
  destruct cs as [|c0 cs0] using rev_ind.
  { cbn in Hs. subst s. cbn in Hb. lia. }
  clear IHcs0. rename cs0 into cs'. rename c0 into c.
  apply Forall_app in Hwf. destruct Hwf as [_ Hwfc]. apply Forall_inv in Hwfc.
  destruct c as [t|lang body].
  - destruct cs' as [|d ds] using rev_ind.
    + left. apply (Htext [] t eq_refl). cbn. lia.
    + clear IHds.
      rewrite <- app_assoc in Halt. pose proof Halt as Halt'.
      apply alternating_app_r in Halt'. cbn [app alternating] in Halt'.
      destruct Halt' as [Hd _].
      destruct d as [t'|lang body]; [discriminate Hd|].
      assert (Hcc : (length (sources ds) + 4 + length lang + length body
                     <= i + 2)%nat).
      { apply (fence_chunk_closer_before ds [TextChunk t] lang body).
        now rewrite <- app_assoc in Hs. }
      destruct (Nat.le_gt_cases (length (sources (ds ++ [FenceChunk lang body]))) i)
        as [Hle|Hgt].
      * left. now apply (Htext (ds ++ [FenceChunk lang body]) t eq_refl).
      * right. exists ds, lang, body, t. rewrite sources_snoc_fence in Hgt.
        split; [|split; [lia|exact Hcc]].
        rewrite <- app_assoc. cbn [app]. destruct t; [contradiction|reflexivity].
  - right. exists cs', lang, body, []. cbn [tail_chunk].
    pose proof (fence_chunk_closer_before cs' [] lang body Hs) as Hcc.
    pose proof (f_equal (@length char) Hs) as Hlen.
    rewrite sources_snoc_fence in Hlen.
    split; [reflexivity|]. split; [lia|exact Hcc].
Qed.

End Unterminated.

(* ================================================================== *)
(** ** The parser: the claims *)
(* ================================================================== *)

(** C2 (round trip).  For every input [s], parseMessage returns the
    segments of a cutting [cs] of [s] into text pieces and fenced blocks:
    put end to end, the text pieces and the source text of the blocks
    (fence markup plus untrimmed body) are exactly [s]; a Text segment's
    content is its piece unchanged; a Code segment's content is the body
    of its block without the whitespace at its two ends. *)
Theorem parseMessage_round_trip (s : jsstring) :
  exists cs,
    parseMessage s = Some (map part_of cs)
    /\ concat (map source cs) = s
    /\ (forall t, part_of (TextChunk t) = mkPart text t None
                  /\ source (TextChunk t) = t)
    /\ (forall lang body,
          type (part_of (FenceChunk lang body)) = code
          /\ source (FenceChunk lang body)
             = fence ++ lang ++ [newline] ++ body ++ fence
          /\ exists l r,
               body = l ++ content (part_of (FenceChunk lang body)) ++ r
               /\ Forall (fun c => is_space c = true) l
               /\ Forall (fun c => is_space c = true) r
               /\ (forall c t,
                     content (part_of (FenceChunk lang body)) = c :: t ->
                     is_space c = false)
               /\ (forall t c,
                     content (part_of (FenceChunk lang body)) = t ++ [c] ->
                     is_space c = false)).
Proof.
  destruct (parseMessage_scans s) as (cs & E & Hsc).
  exists cs. split; [exact E|]. split; [exact (scans_sources _ _ Hsc)|].
  split; [intros t; split; reflexivity|].
  intros lang body. split; [reflexivity|]. split; [reflexivity|].
  exact (trim_spec body).
Qed.

(** C8 (no adjacent and no empty Text segments).  For every input the
    returned sequence has no two consecutive Text segments and no Text
    segment with empty content; the empty input gives the empty
    sequence; a fence, two newlines and a fence give exactly one Code
    segment with empty content and language plaintext. *)
Theorem parseMessage_text_segments (s : jsstring) :
  (exists parts,
     parseMessage s = Some parts
     /\ no_adjacent_text parts
     /\ (forall part, In part parts -> type part = text -> content part <> []))
  /\ parseMessage [] = Some []
  /\ parseMessage (lit "```" ++ nl ++ nl ++ lit "```")
     = Some [mkPart code [] (Some (lit "plaintext"))].
Proof.
  split; [|split; reflexivity].
  destruct (parseMessage_scans s) as (cs & E & Hsc).
  exists (map part_of cs). split; [exact E|]. split.
  - apply alternating_no_adjacent. exact (scans_alternating _ _ Hsc).
  - intros part Hin Hty. apply in_map_iff in Hin. destruct Hin as (c & <- & Hc).
    pose proof (scans_wf _ _ Hsc) as Hwf. rewrite Forall_forall in Hwf.
    specialize (Hwf c Hc). destruct c; [exact Hwf|discriminate].
Qed.

(** C6 (mixed content, first closer wins).  The input Hi, newline,
    fence python, newline, print(1), newline, fence, newline, Bye gives
    Text "Hi\n", Code python "print(1)", Text "\nBye"; and for every
    input, the body of every fenced block behind a Code segment ends at
    the first triple backtick after its opener: no triple backtick
    occurs at an earlier offset of the body followed by its closer. *)
Theorem parseMessage_first_closer (s : jsstring) :
  parseMessage mixed_input
  = Some [mkPart text (lit "Hi" ++ nl) None;
          mkPart code (lit "print(1)") (Some (lit "python"));
          mkPart text (nl ++ lit "Bye") None]
  /\ exists cs,
       parseMessage s = Some (map part_of cs)
       /\ concat (map source cs) = s
       /\ forall lang body k,
            In (FenceChunk lang body) cs ->
            (k < length body)%nat ->
            ~ occurs_at fence (body ++ fence) k.
Proof.
  split; [reflexivity|].
  destruct (parseMessage_scans s) as (cs & E & Hsc).
  exists cs. split; [exact E|]. split; [exact (scans_sources _ _ Hsc)|].
  intros lang body k Hin.
  pose proof (scans_wf _ _ Hsc) as Hwf. rewrite Forall_forall in Hwf.
  destruct (Hwf _ Hin) as [_ Hfc]. exact (Hfc k).
Qed.

(** The segments of any string: a cutting into text pieces and complete
    fenced blocks, in which every Code segment comes from a block. *)
Lemma parse_complete_blocks (p : jsstring) :
  exists cs,
    parseMessage p = Some (map part_of cs)
    /\ concat (map source cs) = p
    /\ forall part, In part (map part_of cs) -> type part = code ->
                    from_complete_block p part.
Proof.
  destruct (parseMessage_scans p) as (cs & E & Hsc).
  exists cs. split; [exact E|].
  pose proof (scans_sources _ _ Hsc) as Hs. split; [exact Hs|].
  intros part Hin Hty. rewrite <- Hs at 1.
  apply code_part_from_block; [exact (scans_wf _ _ Hsc)|assumption|assumption].
Qed.

(** C4 (code blocks only ever appear whole).  For every string
    [p ++ rest] and its prefix [p], parseMessage cuts [p] into text
    pieces and fenced blocks, and every Code segment it returns comes
    from a complete block (opener, tag, newline, body, closing
    delimiter) lying inside [p].  The revealer displays a prefix of its
    content after any sequence of events and renders the parse of that
    prefix, so what it shows of a fence whose closing delimiter is not
    yet revealed sits in Text segments. *)
Theorem code_segments_are_complete_blocks
        (p rest : jsstring) (events : list Event) :
  (exists cs,
     parseMessage p = Some (map part_of cs)
     /\ concat (map source cs) = p
     /\ forall part, In part (map part_of cs) -> type part = code ->
                     from_complete_block p part)
  /\ let c := run (p ++ rest) events in
     exists hidden cs,
       p ++ rest = displayedContent c ++ hidden
       /\ parseMessage (displayedContent c) = Some (map part_of cs)
       /\ concat (map source cs) = displayedContent c
       /\ (forall part, In part (map part_of cs) -> type part = code ->
                        from_complete_block (displayedContent c) part)
       /\ (displayedContent c <> [] ->
           renderContent c = Some (map renderPart (map part_of cs))).
Proof.
  split; [apply parse_complete_blocks|].
  intros c.
  destruct (run_consistent (p ++ rest) events) as (n & Hn & _ & Hd & _).
  fold c in Hd.
  destruct (parse_complete_blocks (displayedContent c)) as (cs & E & Hs & Hb).
  exists (skipn n (p ++ rest)), cs.
  split; [rewrite Hd; symmetry; apply firstn_skipn|].
  split; [exact E|]. split; [exact Hs|]. split; [exact Hb|].
  intros Hne. unfold renderContent. rewrite E.
  destruct (displayedContent c); [contradiction|reflexivity].
Qed.

(** C5, the case of the claim that fails.  In the input js block
    closed by three backticks that a tag and a newline follow, those
    three backticks, at offset 8, look like an opener and have no fence
    after them; yet they close the block opened at offset 0, and only
    what follows them is text. *)
Lemma fence_with_tag_closes_earlier_block :
  occurs_at fence reopened_input 8
  /\ (forall j, (8 + 3 <= j)%nat -> ~ occurs_at fence reopened_input j)
  /\ skipn 8 reopened_input = fence ++ lit "py" ++ [newline] ++ lit "y"
  /\ parseMessage reopened_input
     = Some [mkPart code (lit "x") (Some (lit "js"));
             mkPart text (lit "py" ++ nl ++ lit "y") None]
  /\ forall parts part k,
       parseMessage reopened_input = Some parts ->
       In part parts -> type part = text ->
       ~ occurs_at fence (content part) k.
Proof.
  split; [|split; [|split; [reflexivity|split; [reflexivity|]]]].
  - exists (lit "```js" ++ nl ++ lit "x" ++ nl), (lit "py" ++ nl ++ lit "y").
    split; reflexivity.
  - intros j Hj H. apply occurs_at_skipn in H. destruct H as [Hl H].
    cbn in Hl. do 16 (destruct j as [|j]; [try discriminate H; try lia|]).
    lia.
  - intros parts part k E Hin Hty H.
    assert (Ep : parseMessage reopened_input
                 = Some [mkPart code (lit "x") (Some (lit "js"));
                         mkPart text (lit "py" ++ nl ++ lit "y") None])
      by reflexivity.
    rewrite Ep in E. injection E as <-.
    destruct Hin as [<-|[<-|[]]]; [discriminate Hty|].
    apply occurs_at_skipn in H. destruct H as [Hl H]. cbn in Hl.
    do 5 (destruct k as [|k]; [discriminate H|]). lia.
Qed.

(** C5 as amended (unterminated fence).  Let three backticks occur in
    [s] at offset [i], with no three backticks at offset [i + 3] or
    later.  Then no block of the cutting that parseMessage follows
    starts at [i] or later: these backticks open no Code segment.  And
    either the last segment is a Text segment that holds them and all
    that follows to the end of [s], the segments before it covering
    only what comes before [i]; or they overlap the closing delimiter
    of the last block, a block opened before [i], and only what follows
    that delimiter is text.  In particular the input "before ```js",
    newline, "const x = 1;" gives one Text segment, the whole input. *)
Theorem unterminated_fence_is_text (s : jsstring) (i : nat) :
  occurs_at fence s i ->
  (forall j, (i + 3 <= j)%nat -> ~ occurs_at fence s j) ->
  (exists cs,
     parseMessage s = Some (map part_of cs)
     /\ concat (map source cs) = s
     /\ (forall c1 lang body c2,
           cs = c1 ++ FenceChunk lang body :: c2 ->
           (length (concat (map source c1)) < i)%nat)
     /\ ((exists cs' t,
            cs = cs' ++ [TextChunk (t ++ skipn i s)]
            /\ concat (map source cs') ++ t = firstn i s)
         \/ (exists cs' lang body rest,
               cs = cs' ++ FenceChunk lang body
                        :: match rest with [] => [] | _ :: _ => [TextChunk rest] end
               /\ (i <= length (concat (map source cs')) + 4 + length lang
                        + length body + 2)%nat
               /\ (length (concat (map source cs')) + 4 + length lang
                   + length body <= i + 2)%nat)))
  /\ parseMessage unterminated_input = Some [mkPart text unterminated_input None].
Proof.
  intros Hocc Hno. split; [|reflexivity].
  destruct (parseMessage_scans s) as (cs & E & Hsc).
  pose proof (scans_sources _ _ Hsc) as Hs.
  exists cs. split; [exact E|]. split; [exact Hs|]. split.
  - intros c1 lang body c2 Ecs. rewrite Ecs in Hs.
    pose proof (fence_chunk_closer_before s i Hno c1 c2 lang body Hs) as H.
    unfold sources in H. lia.
  - exact (unterminated_tail s i Hno Hocc cs Hs (scans_wf _ _ Hsc)
             (scans_alternating _ _ Hsc)).
Qed.

(** C5 at the input of the claim: the fence at offset 7 of
    "before ```js", newline, "const x = 1;". *)
Lemma unterminated_fence_is_text_witness :
  occurs_at fence unterminated_input 7
  /\ (forall j, (7 + 3 <= j)%nat -> ~ occurs_at fence unterminated_input j)
  /\ exists cs,
       parseMessage unterminated_input = Some (map part_of cs)
       /\ concat (map source cs) = unterminated_input
       /\ forall c1 lang body c2,
            cs = c1 ++ FenceChunk lang body :: c2 ->
            (length (concat (map source c1)) < 7)%nat.
Proof.
  assert (Hocc : occurs_at fence unterminated_input 7).
  { exists (lit "before "), (lit "js" ++ nl ++ lit "const x = 1;").
    split; reflexivity. }
  assert (Hno : forall j, (7 + 3 <= j)%nat -> ~ occurs_at fence unterminated_input j).
  { intros j Hj H. apply occurs_at_skipn in H. destruct H as [Hl H].
    cbn in Hl. do 26 (destruct j as [|j]; [try discriminate H; try lia|]).
    lia. }
  split; [exact Hocc|]. split; [exact Hno|].
  destruct (unterminated_fence_is_text unterminated_input 7 Hocc Hno)
    as [(cs & E & Hs & Hstart & _) _].
  exists cs. split; [exact E|]. split; [exact Hs|exact Hstart].
Defined.

(** C7, the case of the claim that fails: an opener followed by a
    space, then newline, body and closing delimiter.  The pattern wants
    the newline right after the tag, finds a space, and does not match:
    no Code segment is returned. *)
Lemma space_after_opener_no_code :
  is_word 32%N = false
  /\ space_input = fence ++ [32%N] ++ nl ++ lit "hello" ++ nl ++ fence
  /\ exists parts,
       parseMessage space_input = Some parts
       /\ forall part, In part parts -> type part <> code.
Proof.
  split; [reflexivity|]. split; [reflexivity|].
  exists [mkPart text space_input None]. split; [reflexivity|].
  intros part [<-|[]]. discriminate.
Qed.

(** C7 as amended (language defaulting).  In the cutting of any input
    that parseMessage follows, the character right after the three
    backticks of a fenced block is the newline when the block has no
    tag, and then the Code segment has language plaintext; otherwise it
    is a word character, the first of the tag, and the Code segment has
    the tag as language.  So three backticks followed by anything else,
    a space say, open no block.  In particular a fence, newline, hello,
    newline, fence gives one Code segment, plaintext, "hello". *)
Theorem untagged_block_is_plaintext (s : jsstring) :
  (exists cs,
     parseMessage s = Some (map part_of cs)
     /\ concat (map source cs) = s
     /\ forall c1 lang body c2 pre ch rest,
          cs = c1 ++ FenceChunk lang body :: c2 ->
          s = pre ++ fence ++ ch :: rest ->
          length pre = length (concat (map source c1)) ->
          (lang = [] /\ ch = newline
           /\ language (part_of (FenceChunk lang body)) = Some (lit "plaintext"))
          \/ (lang <> [] /\ is_word ch = true
              /\ language (part_of (FenceChunk lang body)) = Some lang))
  /\ parseMessage (lit "```" ++ nl ++ lit "hello" ++ nl ++ lit "```")
     = Some [mkPart code (lit "hello") (Some (lit "plaintext"))].
Proof.
  split; [|reflexivity].
  destruct (parseMessage_scans s) as (cs & E & Hsc).
  exists cs. split; [exact E|].
  pose proof (scans_sources _ _ Hsc) as Hs. split; [exact Hs|].
  intros c1 lang body c2 pre ch rest -> Hpre Hlen.
  pose proof (scans_wf _ _ Hsc) as Hwf.
  apply Forall_app in Hwf. destruct Hwf as [_ Hwf].
  apply Forall_inv in Hwf. destruct Hwf as [Hw _].
  rewrite sources_app, sources_cons in Hs. cbn [source] in Hs.
  rewrite <- Hs in Hpre.
  apply app_eq_app in Hpre.
  assert (Hsame : sources c1 = pre
                  /\ (fence ++ lang ++ [newline] ++ body ++ fence) ++ sources c2
                     = fence ++ ch :: rest).
  { change (concat (map source c1)) with (sources c1) in Hlen.
    destruct Hpre as (l2 & [[E1 E2]|[E1 E2]]).
    - rewrite E1, length_app in Hlen.
      destruct l2; [|cbn in Hlen; lia]. rewrite app_nil_r in E1.
      split; [exact E1|]. now rewrite E2.
    - rewrite E1, length_app in Hlen.
      destruct l2; [|cbn in Hlen; lia]. rewrite app_nil_r in E1.
      split; [now symmetry|]. now rewrite E2. }
  destruct Hsame as [_ Hrest].
  rewrite <- !app_assoc in Hrest. apply app_inv_head in Hrest.
  destruct lang as [|l0 lang].
  - left. cbn [app] in Hrest. injection Hrest as <- _. now repeat split.
  - right. cbn [app] in Hrest. injection Hrest as <- _.
    split; [discriminate|]. split; [|reflexivity].
    now apply Forall_inv in Hw.
Qed.

(* ================================================================== *)
(** ** The revealer: one event at a time *)
(* ================================================================== *)

Section RevealerSteps.

Variable content : jsstring.

Lemma closing_at_unique (s : jsstring) (k k' : nat) :
  closing_at s k -> closing_at s k' -> k = k'.
Proof.
  intros (H3 & Hocc & Hmin) (H3' & Hocc' & Hmin').
  destruct (Nat.lt_trichotomy k k') as [Hlt|[Heq|Hgt]]; [|exact Heq|].
  - exfalso. apply (Hmin' k); [lia|exact Hocc].
  - exfalso. apply (Hmin k'); [lia|exact Hocc'].
Qed.

(** A timeout that fires before the end moves the cursor forward and
    runs the effect again. *)
Lemma tick_before_end (c : Component) (n : nat) :
  consistent content c -> currentIndex c = Z.of_nat n ->
  (n < length content)%nat ->
  tick content c
  = effect content
      (mkComponent (fst (onTimeout content (Z.of_nat n) (firstn n content)))
                   (snd (onTimeout content (Z.of_nat n) (firstn n content)))
                   (isPaused c) false false 0).
Proof.
  intros (n' & Hn & Hi & Hd & Ht & Hcm & Hnt) Hin Hlt.
  assert (n' = n) by lia. subst n'.
  unfold tick. rewrite Ht, Hi, Hd.
  destruct (Nat.ltb_spec n (length content)); [|lia].
  destruct (onTimeout_prefix content n Hlt) as (m & Hm & E).
  rewrite E. cbn [fst snd]. unfold commit. cbn [currentIndex isPaused].
  rewrite Hi. destruct (Z.eqb_spec (Z.of_nat n) (Z.of_nat m)); [lia|].
  cbn [andb]. rewrite Hcm, Hnt.
  destruct (Nat.ltb_spec n (length content)); [|lia]. reflexivity.
Qed.

Lemma effect_index (c : Component) :
  currentIndex (effect content c) = currentIndex c
  /\ displayedContent (effect content c) = displayedContent c.
Proof. unfold effect. destruct (_ <? _); split; reflexivity. Qed.

(** At the end nothing is scheduled and nothing moves. *)
Lemma step_at_end (c : Component) (e : Event) :
  consistent content c -> currentIndex c = len content -> step content c e = c.
Proof.
  intros (n & Hn & Hi & Hd & Ht & Hcm & Hnt) Hend.
  assert (n = length content) by (unfold len in Hend; lia). subst n.
  destruct e; cbn [step].
  - unfold tick. rewrite Ht, Nat.ltb_irrefl. reflexivity.
  - unfold handleClick. rewrite Hend, Z.ltb_irrefl. reflexivity.
Qed.

(** A click before the end shows everything and completes. *)
Lemma click_before_end (c : Component) :
  consistent content c -> currentIndex c < len content ->
  handleClick content c = mkComponent content (len content) true true false 1.
Proof.
  intros (n & Hn & Hi & Hd & Ht & Hcm & Hnt) Hlt.
  unfold handleClick. destruct (Z.ltb_spec (currentIndex c) (len content)); [|lia].
  unfold commit. cbn [currentIndex isPaused].
  destruct (Z.eqb_spec (currentIndex c) (len content)); [lia|]. cbn [andb].
  unfold effect. cbn [currentIndex displayedContent isPaused isComplete notified].
  rewrite Z.ltb_irrefl. rewrite Hnt.
  unfold len in Hlt. rewrite Hi in Hlt.
  destruct (Nat.ltb_spec n (length content)); [reflexivity|lia].
Qed.

Lemma step_monotone (c : Component) (e : Event) :
  consistent content c -> currentIndex c <= currentIndex (step content c e).
Proof.
  intros Hc. pose proof Hc as (n & Hn & Hi & _).
  destruct (Nat.eq_dec n (length content)) as [->|Hne].
  - rewrite step_at_end; [lia|exact Hc|exact Hi].
  - assert (Hlt : (n < length content)%nat) by lia.
    destruct e; cbn [step].
    + rewrite (tick_before_end c n Hc Hi Hlt).
      destruct (effect_index
                  (mkComponent
                     (fst (onTimeout content (Z.of_nat n) (firstn n content)))
                     (snd (onTimeout content (Z.of_nat n) (firstn n content)))
                     (isPaused c) false false 0)) as [-> _].
      cbn [currentIndex].
      destruct (onTimeout_prefix content n Hlt) as (m & Hm & ->). cbn [snd]. lia.
    + rewrite click_before_end; [|exact Hc|unfold len; lia].
      cbn [currentIndex]. unfold len. lia.
Qed.

Lemma run_snoc (events : list Event) (e : Event) :
  run content (events ++ [e]) = step content (run content events) e.
Proof. unfold run. now rewrite fold_left_app. Qed.

Lemma run_app (events more : list Event) :
  run content (events ++ more)
  = fold_left (step content) more (run content events).
Proof. unfold run. now rewrite fold_left_app. Qed.

(** Timeouts alone reach the end: each one reveals a character or more. *)
Lemma ticks_reach_end (k : nat) : forall c n,
  consistent content c -> currentIndex c = Z.of_nat n ->
  (length content <= n + k)%nat ->
  currentIndex (fold_left (step content) (repeat Tick k) c) = len content.
Proof.
  induction k as [|k IH]; intros c n Hc Hi Hk.
  - cbn. destruct Hc as (n' & Hn & Hi' & _). unfold len. lia.
  - cbn [repeat fold_left].
    pose proof (step_consistent content c Tick Hc) as Hc'.
    destruct (Nat.eq_dec n (length content)) as [->|Hne].
    + rewrite step_at_end by assumption. apply (IH c (length content)); [assumption..|lia].
    + pose proof Hc as (n' & Hn & Hi' & _).
      assert (Hlt : (n < length content)%nat) by lia.
      pose proof Hc' as (m & Hm & Him & _).
      apply (IH _ m Hc' Him).
      cbn [step] in Him. rewrite (tick_before_end c n Hc Hi Hlt) in Him.
      destruct (effect_index
                  (mkComponent
                     (fst (onTimeout content (Z.of_nat n) (firstn n content)))
                     (snd (onTimeout content (Z.of_nat n) (firstn n content)))
                     (isPaused c) false false 0)) as [E _].
      rewrite E in Him. cbn [currentIndex] in Him.
      destruct (onTimeout_prefix content n Hlt) as (m' & Hm' & E').
      rewrite E' in Him. cbn [snd] in Him. lia.
Qed.

End RevealerSteps.

(* ================================================================== *)
(** ** The revealer: the claims *)
(* ================================================================== *)

(** C9 (cursor invariant).  After any sequence of timeouts and clicks
    the cursor lies between 0 and the length of the content, the
    displayed content is the content up to the cursor, and the next
    event, whichever it is, does not move the cursor back. *)
Theorem cursor_invariant (content : jsstring) (events : list Event) (e : Event) :
  0 <= currentIndex (run content events) <= len content
  /\ displayedContent (run content events)
     = slice content 0 (currentIndex (run content events))
  /\ currentIndex (run content events)
     <= currentIndex (run content (events ++ [e])).
Proof.
  pose proof (run_consistent content events) as Hc.
  pose proof Hc as (n & Hn & Hi & Hd & _).
  rewrite run_snoc. split; [|split].
  - unfold len. lia.
  - rewrite Hd, Hi. change 0 with (Z.of_nat 0).
    rewrite slice_nat by lia. now rewrite Nat.sub_0_r.
  - now apply step_monotone.
Qed.

(** C3 (one reveal step).  In a state reached by any events whose
    cursor is before the end: when the unrevealed remainder starts with
    three backticks and [k] is the offset of its closing delimiter (the
    first three backticks at offset 3 or later), the timeout moves the
    cursor to the end of that delimiter and displays the whole block;
    when the remainder does not start with three backticks, or has no
    three backticks at offset 3 or later, the timeout moves the cursor
    by min(3, length - cursor). *)
Theorem reveal_step (content : jsstring) (events : list Event) :
  currentIndex (run content events) < len content ->
  (forall k,
     occurs_at fence (slice_from content (currentIndex (run content events))) 0 ->
     closing_at (slice_from content (currentIndex (run content events))) k ->
     currentIndex (tick content (run content events))
     = currentIndex (run content events) + Z.of_nat k + 3
     /\ displayedContent (tick content (run content events))
        = displayedContent (run content events)
          ++ slice (slice_from content (currentIndex (run content events)))
                   0 (Z.of_nat k + 3))
  /\ ((~ occurs_at fence (slice_from content (currentIndex (run content events))) 0
       \/ forall k, (3 <= k)%nat ->
                    ~ occurs_at fence
                        (slice_from content (currentIndex (run content events))) k) ->
      currentIndex (tick content (run content events))
      = currentIndex (run content events)
        + Z.min 3 (len content - currentIndex (run content events))).
Proof.
  intros Hlt.
  pose proof (run_consistent content events) as Hc.
  set (c := run content events) in *.
  pose proof Hc as (n & Hn & Hi & Hd & _).
  assert (Hn' : (n < length content)%nat) by (unfold len in Hlt; lia).
  rewrite (tick_before_end content c n Hc Hi Hn').
  match goal with
  | |- context [effect content ?x] =>
      destruct (effect_index content x) as [-> ->]
  end.
  cbn [currentIndex displayedContent]. rewrite Hi, Hd.
  rewrite slice_from_nat by lia.
  destruct (onTimeout_cases content n (firstn n content) Hn')
    as [(k0 & Hocc0 & Hk0 & E)|[Hnot E]]; rewrite E; cbn [fst snd].
  - split.
    + intros k _ Hk. rewrite (closing_at_unique _ _ _ Hk Hk0).
      split; [lia|]. f_equal.
      destruct Hk0 as (_ & Hoccx & _).
      pose proof (occurs_at_bound _ _ _ Hoccx) as Hb. cbn [length fence] in Hb.
      replace (Z.of_nat k0 + 3) with (Z.of_nat (k0 + 3)) by lia.
      change (slice (skipn n content) 0)
        with (slice (skipn n content) (Z.of_nat 0)).
      rewrite slice_nat by lia. now rewrite Nat.sub_0_r.
    + intros [Hno|Hno]; [contradiction|].
      destruct Hk0 as (H3 & Hoccx & _). exfalso. exact (Hno k0 H3 Hoccx).
  - split.
    + intros k Hocc (H3 & Hoccx & _). exfalso.
      destruct Hnot as [Hnot|Hnot]; [contradiction|exact (Hnot k H3 Hoccx)].
    + intros _. unfold len. lia.
Qed.

(** C3 on the mixed input: the first timeout leaves the cursor at 3, in
    front of the python block, whose closing delimiter is at offset 19
    of the remainder; the next timeout moves the cursor to 25. *)
Lemma reveal_step_witness :
  currentIndex (run mixed_input [Tick]) < len mixed_input
  /\ closing_at (slice_from mixed_input (currentIndex (run mixed_input [Tick]))) 19
  /\ currentIndex (tick mixed_input (run mixed_input [Tick])) = 25.
Proof.
  assert (Hlt : currentIndex (run mixed_input [Tick]) < len mixed_input)
    by reflexivity.
  assert (Hopen :
    occurs_at fence (slice_from mixed_input (currentIndex (run mixed_input [Tick]))) 0).
  { exists [], (lit "python" ++ nl ++ lit "print(1)" ++ nl ++ lit "```" ++ nl ++ lit "Bye").
    split; reflexivity. }
  assert (Hclose :
    closing_at (slice_from mixed_input (currentIndex (run mixed_input [Tick]))) 19).
  { split; [lia|]. split.
    - exists (lit "```python" ++ nl ++ lit "print(1)" ++ nl), (nl ++ lit "Bye").
      split; reflexivity.
    - intros j Hj H. apply occurs_at_skipn in H. destruct H as [_ H].
      do 19 (destruct j as [|j]; [try discriminate H; try lia|]). lia. }
  split; [exact Hlt|]. split; [exact Hclose|].
  exact (proj1 (proj1 (reveal_step mixed_input [Tick] Hlt) 19%nat Hopen Hclose)).
Defined.

(** C10 (force-complete).  In a state reached by any events, a click
    shows the whole content and puts the cursor at the end; a second
    click changes nothing; a click on a complete component changes
    nothing; after the click the component is complete and has notified
    once.  At any time the component has notified at most once, exactly
    when the cursor is at the end, which is when it is complete; from
    then on no timeout is scheduled and no event changes the state.
    Timeouts alone complete it as well. *)
Theorem force_complete (content : jsstring) (events : list Event) :
  displayedContent (handleClick content (run content events)) = content
  /\ currentIndex (handleClick content (run content events)) = len content
  /\ handleClick content (handleClick content (run content events))
     = handleClick content (run content events)
  /\ (isComplete (run content events) = true ->
      handleClick content (run content events) = run content events)
  /\ isComplete (handleClick content (run content events)) = true
  /\ notified (handleClick content (run content events)) = 1%nat
  /\ (notified (run content events) <= 1)%nat
  /\ (notified (run content events) = 1%nat
      <-> currentIndex (run content events) = len content)
  /\ (isComplete (run content events) = true
      <-> currentIndex (run content events) = len content)
  /\ (isComplete (run content events) = true ->
      timerPending (run content events) = false
      /\ forall more,
           fold_left (step content) more (run content events)
           = run content events)
  /\ (isComplete (run content (events ++ repeat Tick (length content))) = true
      /\ notified (run content (events ++ repeat Tick (length content))) = 1%nat).
Proof.
  pose proof (run_consistent content events) as Hc.
  set (c := run content events) in *.
  pose proof Hc as (n & Hn & Hi & Hd & Ht & Hcm & Hnt).
  assert (Hend : forall c', consistent content c' ->
                            (isComplete c' = true <-> currentIndex c' = len content)
                            /\ (notified c' = 1%nat <-> currentIndex c' = len content)
                            /\ (notified c' <= 1)%nat).
  { intros c' (m & Hm & Hi' & _ & _ & Hcm' & Hnt'). rewrite Hcm', Hnt', Hi'.
    unfold len. destruct (Nat.ltb_spec m (length content)); cbn; repeat split;
      intros; try lia; try discriminate. }
  assert (Hclick : displayedContent (handleClick content c) = content
                   /\ currentIndex (handleClick content c) = len content
                   /\ isComplete (handleClick content c) = true
                   /\ notified (handleClick content c) = 1%nat).
  { destruct (Nat.eq_dec n (length content)) as [->|Hne].
    - change (handleClick content c) with (step content c Click).
      rewrite step_at_end; [|exact Hc|exact Hi].
      rewrite Hd, Hi, Hcm, Hnt, Nat.ltb_irrefl, firstn_all. now repeat split.
    - rewrite click_before_end; [now repeat split|exact Hc|unfold len; lia]. }
  destruct Hclick as (Hcd & Hci & Hcc & Hcn).
  pose proof (click_consistent content c Hc) as Hc1.
  assert (Hfix : forall c' more, consistent content c' ->
                   currentIndex c' = len content ->
                   fold_left (step content) more c' = c').
  { intros c' more. induction more as [|e more IH]; intros Hc' He; [reflexivity|].
    cbn [fold_left]. rewrite step_at_end by assumption. now apply IH. }
  split; [exact Hcd|]. split; [exact Hci|].
  split; [exact (step_at_end content _ Click Hc1 Hci)|].
  split.
  { intros Hdone. apply (step_at_end content c Click Hc).
    destruct (Hend c Hc) as (Hiff & _). now apply Hiff. }
  split; [exact Hcc|]. split; [exact Hcn|].
  destruct (Hend c Hc) as (Hiff1 & Hiff2 & Hle).
  split; [exact Hle|]. split; [exact Hiff2|]. split; [exact Hiff1|].
  split.
  - intros Hdone. apply Hiff1 in Hdone. split.
    + rewrite Ht. unfold len in Hdone.
      destruct (Nat.ltb_spec n (length content)); [lia|reflexivity].
    + intros more. now apply Hfix.
  - rewrite run_app. fold c.
    pose proof (fold_consistent content (repeat Tick (length content)) c Hc) as Hc2.
    pose proof (ticks_reach_end content (length content) c n Hc Hi ltac:(lia)) as Hr.
    destruct (Hend _ Hc2) as (Hiff1' & Hiff2' & _).
    split; [now apply Hiff1'|now apply Hiff2'].
Qed.

(** C1 (fence atomicity), where the code falls short.  The content
    is one character followed by a complete fenced block, which
    parseMessage renders as a Text and a Code segment.  The first timeout
    reveals three characters and so steps over the start of the fence;
    at the second the remainder no longer starts with three backticks,
    and three more characters are revealed: the displayed prefix holds
    the opener and ends inside the block, which is rendered as raw
    text.  On the mixed input, where the fence starts at offset 3, the
    cursor does jump over the block, from 3 to 25. *)
Theorem fence_split_when_unaligned :
  unaligned_input = lit "a" ++ fence ++ nl ++ lit "b" ++ nl ++ fence
  /\ parseMessage unaligned_input
     = Some [mkPart text (lit "a") None;
             mkPart code (lit "b") (Some (lit "plaintext"))]
  /\ currentIndex (run unaligned_input [Tick]) = 3
  /\ currentIndex (run unaligned_input [Tick; Tick]) = 6
  /\ displayedContent (run unaligned_input [Tick; Tick])
     = lit "a" ++ fence ++ nl ++ lit "b"
  /\ len unaligned_input = 10
  /\ renderContent (run unaligned_input [Tick; Tick])
     = Some [Paragraph (lit "a" ++ fence ++ nl ++ lit "b")]
  /\ map (fun n => currentIndex (run mixed_input (repeat Tick n)))
         [0; 1; 2; 3; 4]%nat
     = [0; 3; 25; 28; 29].
Proof. repeat split; reflexivity. Qed.

(* ================================================================== *)
(** ** The scanner misses no block *)
(* ================================================================== *)

Section ScannerComplete.
Import Scanner.

Lemma backtick_not_word : is_word backtick = false.
Proof. reflexivity. Qed.

Lemma newline_not_word : is_word newline = false.
Proof. reflexivity. Qed.

(** Every character of an occurrence of the fence is a backtick. *)
Lemma occurs_at_fence_nth (s : jsstring) (k d : nat) :
  occurs_at fence s k -> (d < 3)%nat -> nth_error s (k + d) = Some backtick.
Proof.
  intros (pre & post & -> & <-) Hd.
  rewrite nth_error_app2 by lia.
  replace (length pre + d - length pre)%nat with d by lia.
  destruct d as [|[|[|d]]]; try reflexivity. lia.
Qed.

(** After three backticks and a non-empty run [y] without backticks,
    the next fence starts after [y]. *)
Lemma next_fence_after (y x : jsstring) (k : nat) :
  Forall (fun c => c <> backtick) y -> y <> [] ->
  occurs_at fence (fence ++ y ++ x) k -> (1 <= k)%nat ->
  (3 + length y <= k)%nat.
Proof.
  intros Hy Hne Hocc Hk.
  destruct (Nat.le_gt_cases (3 + length y) k) as [|Hlt]; [assumption|exfalso].
  assert (Hlen : (0 < length y)%nat) by (destruct y; [contradiction|cbn; lia]).
  assert (Hj : exists j, (k <= j < k + 3 /\ 3 <= j < 3 + length y)%nat)
    by (exists (Nat.max k 3); lia).
  destruct Hj as (j & Hj1 & Hj2).
  pose proof (occurs_at_fence_nth _ k (j - k) Hocc ltac:(lia)) as Hn.
  replace (k + (j - k))%nat with j in Hn by lia.
  change (fence ++ y ++ x) with ([backtick; backtick; backtick] ++ y ++ x) in Hn.
  rewrite nth_error_app2 in Hn by (cbn; lia). cbn [length] in Hn.
  rewrite nth_error_app1 in Hn by lia.
  rewrite Forall_forall in Hy. apply nth_error_In in Hn. now apply Hy in Hn.
Qed.

Lemma word_not_backtick (lang : jsstring) :
  Forall (fun ch => is_word ch = true) lang ->
  Forall (fun c => c <> backtick) lang.
Proof.
  apply Forall_impl. intros a Ha ->. discriminate Ha.
Qed.

Lemma find_fence_complete (x : jsstring) (k : nat) :
  occurs_at fence x k -> find_fence x <> None.
Proof.
  revert k. induction x as [|c x IH]; intros k Hocc; rewrite find_fence_eq.
  - apply occurs_at_bound in Hocc. cbn in Hocc. lia.
  - destruct (prefixb fence (c :: x)) eqn:P; [discriminate|].
    destruct k as [|k].
    + apply occurs_at_prefixb in Hocc. congruence.
    + apply occurs_at_cons in Hocc. specialize (IH k Hocc).
      destruct (find_fence x) as [[b r]|]; [discriminate|contradiction].
Qed.

Lemma span_word_tag (lang : jsstring) (c : char) (r : jsstring) :
  Forall (fun ch => is_word ch = true) lang -> is_word c = false ->
  span_word (lang ++ c :: r) = (lang, c :: r).
Proof.
  intros Hl Hc. induction Hl as [|a lang Ha Hl IH]; cbn [app span_word].
  - now rewrite Hc.
  - now rewrite Ha, IH.
Qed.

(** A complete, well-formed block at the head of [s] is found. *)
Lemma block_at_complete (lang body post : jsstring) :
  Forall (fun ch => is_word ch = true) lang ->
  block_at (fence ++ lang ++ [newline] ++ body ++ fence ++ post) <> None.
Proof.
  intros Hl. unfold block_at. rewrite prefixb_app.
  change (skipn 3 (fence ++ lang ++ [newline] ++ body ++ fence ++ post))
    with (lang ++ newline :: body ++ fence ++ post).
  rewrite (span_word_tag lang newline _ Hl newline_not_word).
  rewrite N.eqb_refl.
  assert (H : find_fence (body ++ fence ++ post) <> None).
  { apply (find_fence_complete _ (length body)). now exists body, post. }
  destruct (find_fence (body ++ fence ++ post)) as [[b r]|]; [discriminate|contradiction].
Qed.

Lemma first_block_none (s : jsstring) :
  first_block s = None -> forall j, block_at (skipn j s) = None.
Proof.
  induction s as [|c s IH]; cbn [first_block]; intros H j.
  - rewrite skipn_nil. now destruct (block_at []) as [[[? ?] ?]|].
  - destruct (block_at (c :: s)) as [[[? ?] ?]|] eqn:B; [discriminate|].
    destruct j as [|j]; [exact B|]. cbn [skipn]. apply IH.
    now destruct (first_block s) as [[[[? ?] ?] ?]|].
Qed.

Lemma first_block_skipped (s : jsstring) : forall t w b after j,
  first_block s = Some (t, w, b, after) -> (j < length t)%nat ->
  block_at (skipn j s) = None.
Proof.
  induction s as [|c s IH]; cbn [first_block]; intros t w b after j H Hj.
  - destruct (block_at []) as [[[? ?] ?]|]; [|discriminate].
    injection H as <- _ _ _. cbn in Hj. lia.
  - destruct (block_at (c :: s)) as [[[? ?] ?]|] eqn:B.
    + injection H as <- _ _ _. cbn in Hj. lia.
    + destruct (first_block s) as [[[[t' w'] b'] a']|] eqn:F; [|discriminate].
      injection H as <- <- <- <-.
      destruct j as [|j]; [exact B|]. cbn [skipn].
      apply (IH t' w' b' a' j eq_refl). cbn in Hj. lia.
Qed.

Lemma skipn_app_add (p r : jsstring) (n : nat) :
  skipn (length p + n) (p ++ r) = skipn n r.
Proof.
  rewrite skipn_app, skipn_all2 by lia. cbn [app]. f_equal. lia.
Qed.

Lemma skipn_sources_cons (c : chunk) (cs : list chunk) (n : nat) (rest : jsstring) :
  skipn (length (sources (c :: cs)) + n) (source c ++ rest)
  = skipn (length (sources cs) + n) rest.
Proof.
  rewrite sources_cons, length_app, <- Nat.add_assoc. apply skipn_app_add.
Qed.

(** In a scan, no block starts inside a text chunk. *)
Lemma scans_text_no_block (s : jsstring) (cs : list chunk) :
  scans s cs ->
  forall c1 t c2 j,
    cs = c1 ++ TextChunk t :: c2 -> (j < length t)%nat ->
    block_at (skipn (length (sources c1) + j) s) = None.
Proof.
  induction 1 as [|t Ht Hn|s w b after cs Hf Hs IH|s t w b after cs Ht Hf Hs IH];
    intros c1 t' c2 j E Hj.
  - destruct c1; discriminate.
  - destruct c1 as [|d c1]; [|destruct c1; discriminate].
    injection E as <- _. cbn. now apply first_block_none.
  - destruct c1 as [|d c1]; [discriminate|]. injection E as <- E.
    pose proof (first_block_sound _ _ _ _ _ Hf) as [-> _]. cbn [app].
    rewrite skipn_sources_cons. now apply (IH c1 t' c2 j).
  - destruct c1 as [|d c1].
    + injection E as <- _. cbn. now apply (first_block_skipped s t w b after).
    + injection E as <- E. destruct c1 as [|d' c1]; [discriminate|].
      injection E as <- E.
      pose proof (first_block_sound _ _ _ _ _ Hf) as [-> _].
      change (t ++ source (FenceChunk w b) ++ after)
        with (source (TextChunk t) ++ source (FenceChunk w b) ++ after).
      rewrite !skipn_sources_cons. now apply (IH c1 t' c2 j).
Qed.

End ScannerComplete.

(* ================================================================== *)
(** ** Scanning a longer input *)
(* ================================================================== *)

Section ScannerExtension.
Import Scanner.

Variable q : jsstring.

Lemma prefixb_fence_long (x : jsstring) :
  (3 <= length x)%nat -> prefixb fence (x ++ q) = prefixb fence x.
Proof.
  intros H. destruct (prefixb fence x) eqn:P.
  - now apply prefixb_fence_app.
  - destruct (prefixb fence (x ++ q)) eqn:P'; [|reflexivity].
    apply prefixb_app_inv in P'; [congruence|exact H].
Qed.

Lemma skipn_3_app (x : jsstring) :
  (3 <= length x)%nat -> skipn 3 (x ++ q) = skipn 3 x ++ q.
Proof.
  intros H. rewrite skipn_app. replace (3 - length x)%nat with 0%nat by lia.
  reflexivity.
Qed.

Lemma find_fence_app (x : jsstring) : forall b after,
  find_fence x = Some (b, after) -> find_fence (x ++ q) = Some (b, after ++ q).
Proof.
  induction x as [|c x IH]; intros b after H.
  - discriminate H.
  - pose proof (find_fence_sound _ _ _ H) as [E _].
    assert (Hl : (3 <= length (c :: x))%nat).
    { rewrite E, !length_app. cbn [length fence]. lia. }
    rewrite find_fence_eq in H. rewrite find_fence_eq.
    rewrite (prefixb_fence_long _ Hl).
    destruct (prefixb fence (c :: x)) eqn:P.
    + injection H as <- <-. now rewrite skipn_3_app.
    + cbn [app]. destruct (find_fence x) as [[b' r]|] eqn:F; [|discriminate].
      injection H as <- <-. now rewrite (IH _ _ eq_refl).
Qed.

Lemma span_word_app (x : jsstring) : forall w c r,
  span_word x = (w, c :: r) -> span_word (x ++ q) = (w, c :: r ++ q).
Proof.
  induction x as [|a x IH]; intros w c r H.
  - discriminate H.
  - rewrite span_word_eq in H. cbn [app]. rewrite span_word_eq.
    destruct (is_word a).
    + destruct (span_word x) as [w' r'] eqn:E. injection H as <- ->.
      now rewrite (IH _ _ _ eq_refl).
    + injection H as <- <- <-. reflexivity.
Qed.

Lemma block_at_app (s w b after : jsstring) :
  block_at s = Some (w, b, after) ->
  block_at (s ++ q) = Some (w, b, after ++ q).
Proof.
  unfold block_at. destruct (prefixb fence s) eqn:P; [|discriminate].
  assert (Hl : (3 <= length s)%nat).
  { apply prefixb_split in P. rewrite P, length_app. cbn. lia. }
  rewrite (prefixb_fence_long _ Hl), P, (skipn_3_app _ Hl).
  destruct (span_word (skipn 3 s)) as [w' r] eqn:E.
  destruct r as [|c r]; [discriminate|].
  rewrite (span_word_app _ _ _ _ E).
  destruct (N.eqb c newline); [|discriminate].
  destruct (find_fence r) as [[b' a']|] eqn:F; [|discriminate].
  intros [= <- <- <-]. now rewrite (find_fence_app _ _ _ F).
Qed.

(** A failed attempt in front of a later fence fails on the longer
    input as well: what is wrong with it is its opener. *)
Lemma block_at_none_app (s : jsstring) (k : nat) :
  block_at s = None -> occurs_at fence s k -> (1 <= k)%nat ->
  block_at (s ++ q) = None.
Proof.
  intros H Hocc Hk.
  pose proof (occurs_at_bound _ _ _ Hocc) as Hb. cbn [length fence] in Hb.
  unfold block_at in *.
  rewrite (prefixb_fence_long s) by lia.
  destruct (prefixb fence s) eqn:P; [|reflexivity].
  rewrite skipn_3_app by lia.
  apply prefixb_split in P. cbn [length fence] in P.
  destruct (span_word (skipn 3 s)) as [w r] eqn:E.
  destruct (span_word_sound _ _ _ E) as [Es Hw].
  destruct r as [|c r].
  - exfalso. rewrite app_nil_r in Es. rewrite Es in P.
    destruct w as [|a w].
    + rewrite P in Hb. cbn in Hb. lia.
    + rewrite P in Hocc, Hb.
      rewrite <- (app_nil_r (a :: w)) in Hocc.
      pose proof (next_fence_after (a :: w) [] k (word_not_backtick _ Hw)
                    ltac:(discriminate) Hocc Hk) as Hge.
      rewrite length_app in Hb. cbn [length fence] in Hb, Hge. lia.
  - rewrite (span_word_app _ _ _ _ E).
    destruct (N.eqb_spec c newline) as [->|]; [|reflexivity].
    destruct (find_fence r) as [[b a]|] eqn:F; [discriminate|]. exfalso.
    rewrite Es in P.
    assert (Hy : Forall (fun ch => ch <> backtick) (w ++ [newline])).
    { apply Forall_app. split; [now apply word_not_backtick|].
      repeat constructor. discriminate. }
    assert (Hs : s = fence ++ (w ++ [newline]) ++ r)
      by (rewrite P at 1; now rewrite <- app_assoc).
    rewrite Hs in Hocc.
    pose proof (next_fence_after (w ++ [newline]) r k Hy
                  ltac:(now destruct w) Hocc Hk) as Hge.
    apply (find_fence_complete r (k - (3 + length (w ++ [newline])))%nat); [|exact F].
    pose proof (occurs_at_bound _ _ _ Hocc) as Hb2.
    rewrite !length_app in Hb2. cbn [length fence] in Hb2.
    replace k with (length (fence ++ w ++ [newline])
                    + (k - (3 + length (w ++ [newline]))))%nat in Hocc
      by (rewrite !length_app in *; cbn [length fence] in *; lia).
    rewrite app_assoc in Hocc.
    apply occurs_at_skipn in Hocc. destruct Hocc as [_ Hp].
    rewrite skipn_app_add in Hp.
    apply occurs_at_skipn. split; [|exact Hp].
    rewrite !length_app in *. cbn [length fence] in *. lia.
Qed.

Lemma first_block_app (s : jsstring) : forall t w b after,
  first_block s = Some (t, w, b, after) ->
  first_block (s ++ q) = Some (t, w, b, after ++ q).
Proof.
  induction s as [|c s IH]; intros t w b after H.
  - cbn [first_block] in H.
    destruct (block_at []) as [[[? ?] ?]|] eqn:B; discriminate.
  - cbn [first_block] in H. change ((c :: s) ++ q) with (c :: s ++ q).
    cbn [first_block]. change (c :: s ++ q) with ((c :: s) ++ q).
    destruct (block_at (c :: s)) as [[[w' b'] a']|] eqn:B.
    + injection H as <- <- <- <-. now rewrite (block_at_app _ _ _ _ B).
    + destruct (first_block s) as [[[[t' w'] b'] a']|] eqn:F; [|discriminate].
      injection H as <- <- <- <-.
      rewrite (block_at_none_app (c :: s) (S (length t')) B).
      * now rewrite (IH _ _ _ _ eq_refl).
      * apply occurs_at_cons.
        pose proof (first_block_sound _ _ _ _ _ F) as [-> _].
        exists t', (w' ++ [newline] ++ b' ++ fence ++ a').
        split; [cbn [source]; now rewrite <- !app_assoc|reflexivity].
      * lia.
Qed.

End ScannerExtension.

Section ScanStable.
Import Scanner.

(** A string has one scan. *)
Lemma scans_functional (s : jsstring) (cs ds : list chunk) :
  scans s cs -> scans s ds -> cs = ds.
Proof.
  intros H. revert ds.
  induction H as [|t Ht Hn|s w b after cs Hf Hs IH|s t w b after cs Ht Hf Hs IH];
    intros ds Hd; inversion Hd as [|t2 Ht2 Hn2|s2 w2 b2 a2 cs2 Hf2 Hs2
                                   |s2 t2 w2 b2 a2 cs2 Ht2 Hf2 Hs2];
    subst; try reflexivity; try contradiction;
    try (cbn in Hf; discriminate Hf); try (cbn in Hf2; discriminate Hf2);
    try congruence.
  - rewrite Hf in Hf2. injection Hf2 as <- <- <-. f_equal. now apply IH.
  - rewrite Hf in Hf2. injection Hf2 as <- <- <- <-. do 2 f_equal. now apply IH.
Qed.

(** The scan of an extension: the chunks up to the last block stay,
    the text after it is scanned again with what was added. *)
Lemma scans_extend (p : jsstring) (cs : list chunk) :
  scans p cs ->
  exists blocks t,
    cs = blocks ++ tail_chunk t
    /\ p = sources blocks ++ t
    /\ forall q ds, scans (t ++ q) ds -> scans (p ++ q) (blocks ++ ds).
Proof.
  induction 1 as [|t Ht Hn|s w b after cs Hf Hs IH|s t w b after cs Ht Hf Hs IH].
  - exists [], []. repeat split. intros q ds H. exact H.
  - exists [], t. split; [now destruct t|]. split; [reflexivity|].
    intros q ds H. exact H.
  - destruct IH as (blocks & t & -> & Ea & Hext).
    exists (FenceChunk w b :: blocks), t. split; [reflexivity|]. split.
    + pose proof (first_block_sound _ _ _ _ _ Hf) as [-> _].
      rewrite sources_cons, Ea. cbn [app]. now rewrite <- app_assoc.
    + intros q ds Hq. cbn [app].
      eapply scans_fence; [apply (first_block_app q _ _ _ _ _ Hf)|].
      now apply Hext.
  - destruct IH as (blocks & t' & -> & Ea & Hext).
    exists (TextChunk t :: FenceChunk w b :: blocks), t'.
    split; [reflexivity|]. split.
    + pose proof (first_block_sound _ _ _ _ _ Hf) as [-> _].
      rewrite !sources_cons, Ea. cbn [source]. now rewrite <- !app_assoc.
    + intros q ds Hq. cbn [app].
      eapply scans_text_fence; [exact Ht|apply (first_block_app q _ _ _ _ _ Hf)|].
      now apply Hext.
Qed.

(** parseMessage on an extension of its input. *)
Lemma parse_extension (p q : jsstring) :
  exists cs t more,
    parseMessage p = Some (map part_of cs ++ map part_of (tail_chunk t))
    /\ concat (map source cs) ++ t = p
    /\ parseMessage (t ++ q) = Some more
    /\ parseMessage (p ++ q) = Some (map part_of cs ++ more).
Proof.
  destruct (parseMessage_scans p) as (cs & Ep & Hp).
  destruct (scans_extend p cs Hp) as (blocks & t & -> & Es & Hext).
  destruct (parseMessage_scans (t ++ q)) as (ds & Et & Ht).
  destruct (parseMessage_scans (p ++ q)) as (es & Epq & Hpq).
  exists blocks, t, (map part_of ds).
  split; [now rewrite Ep, map_app|]. split; [now symmetry|].
  split; [exact Et|].
  rewrite Epq, (scans_functional _ _ _ Hpq (Hext q ds Ht)), map_app. reflexivity.
Qed.

End ScanStable.

(* ================================================================== *)
(** ** More about parseMessage *)
(* ================================================================== *)

(** X1 (no fence, no split).  A non-empty message in which three
    backticks do not occur comes back as one Text segment holding the
    whole message. *)
Theorem parseMessage_without_fence (s : jsstring) :
  s <> [] -> (forall k, ~ occurs_at fence s k) ->
  parseMessage s = Some [mkPart text s None].
Proof.
  intros Hne Hno.
  destruct (parseMessage_scans s) as (cs & E & Hsc). rewrite E.
  assert (Hblock : forall t w b after,
             Scanner.first_block s = Some (t, w, b, after) -> False).
  { intros t w b after F. apply first_block_sound in F. destruct F as [Es _].
    apply (Hno (length t)). exists t, (w ++ [newline] ++ b ++ fence ++ after).
    split; [rewrite Es; cbn [source]; now rewrite <- !app_assoc|reflexivity]. }
  inversion Hsc as [|t Ht Hn|s2 w b after cs2 Hf Hs|s2 t w b after cs2 Ht Hf Hs];
    subst.
  - contradiction.
  - reflexivity.
  - exfalso. eapply Hblock; eassumption.
  - exfalso. eapply Hblock; eassumption.
Qed.

Lemma parseMessage_without_fence_witness :
  lit "hello, world" <> []
  /\ parseMessage (lit "hello, world") = Some [mkPart text (lit "hello, world") None].
Proof.
  split; [discriminate|].
  apply parseMessage_without_fence; [discriminate|].
  intros k H. apply occurs_at_skipn in H. destruct H as [Hl H]. cbn in Hl.
  do 13 (destruct k as [|k]; [discriminate H|]). lia.
Defined.

(** X2 (a complete block is found).  When the message holds, anywhere,
    three backticks, a tag of word characters, a newline, any text and
    three backticks again, parseMessage returns at least one Code
    segment. *)
Theorem parseMessage_finds_block (pre lang body post : jsstring) :
  Forall (fun ch => is_word ch = true) lang ->
  exists parts part,
    parseMessage (pre ++ fence ++ lang ++ [newline] ++ body ++ fence ++ post)
    = Some parts
    /\ In part parts /\ type part = code.
Proof.
  intros Hl.
  set (s := pre ++ fence ++ lang ++ [newline] ++ body ++ fence ++ post).
  destruct (parseMessage_scans s) as (cs & E & Hsc).
  assert (Hsome : Scanner.first_block s <> None).
  { intros F. pose proof (first_block_none s F (length pre)) as B.
    unfold s in B. rewrite <- (Nat.add_0_r (length pre)) in B.
    rewrite skipn_app_add in B. cbn [skipn] in B.
    now apply (block_at_complete lang body post Hl). }
  assert (Hin : exists w b, In (FenceChunk w b) cs).
  { inversion Hsc as [Es|t Ht Hn|s2 w b after cs2 Hf Hs|s2 t w b after cs2 Ht Hf Hs];
      subst.
    - exfalso. apply Hsome. now rewrite <- Es.
    - contradiction.
    - exists w, b. now left.
    - exists w, b. right. now left. }
  destruct Hin as (w & b & Hin).
  exists (map part_of cs), (part_of (FenceChunk w b)).
  split; [exact E|]. split; [now apply in_map|reflexivity].
Qed.

Lemma parseMessage_finds_block_witness :
  Forall (fun ch => is_word ch = true) (lit "js")
  /\ exists parts part,
       parseMessage (lit "see " ++ fence ++ lit "js" ++ [newline] ++ lit "x = 1"
                       ++ fence ++ lit " done")
       = Some parts
       /\ In part parts /\ type part = code.
Proof.
  assert (H : Forall (fun ch => is_word ch = true) (lit "js"))
    by (repeat constructor).
  split; [exact H|].
  exact (parseMessage_finds_block (lit "see ") (lit "js") (lit "x = 1") (lit " done") H).
Defined.

(** X3 (no block left in the text).  In the cutting of a message that
    parseMessage follows, no complete well-formed block starts inside a
    Text segment: at no offset of a text piece does the message go on
    with three backticks, a tag of word characters, a newline, any body
    and three backticks. *)
Theorem text_segments_hold_no_block (s : jsstring) :
  exists cs,
    parseMessage s = Some (map part_of cs)
    /\ concat (map source cs) = s
    /\ forall c1 t c2 j lang body post,
         cs = c1 ++ TextChunk t :: c2 ->
         (j < length t)%nat ->
         Forall (fun ch => is_word ch = true) lang ->
         skipn (length (concat (map source c1)) + j) s
         <> fence ++ lang ++ [newline] ++ body ++ fence ++ post.
Proof.
  destruct (parseMessage_scans s) as (cs & E & Hsc).
  exists cs. split; [exact E|]. split; [exact (scans_sources _ _ Hsc)|].
  intros c1 t c2 j lang body post Ecs Hj Hl Hskip.
  pose proof (scans_text_no_block s cs Hsc c1 t c2 j Ecs Hj) as B.
  unfold sources in B. rewrite Hskip in B.
  now apply (block_at_complete lang body post Hl).
Qed.

Lemma plaintext_word : Forall (fun ch => is_word ch = true) plaintext.
Proof. repeat constructor. Qed.

(** X4 (the language of a segment).  A Text segment has no language;
    a Code segment has one, not empty and made of word characters only
    (the tag of its block, or plaintext), and this is the language its
    rendering hands to the code block: the second default, in the
    renderer, never applies. *)
Theorem code_segment_language (s : jsstring) :
  exists parts,
    parseMessage s = Some parts
    /\ forall part, In part parts ->
         (type part = text -> language part = None)
         /\ (type part = code ->
             exists l, language part = Some l /\ l <> []
                       /\ Forall (fun ch => is_word ch = true) l
                       /\ renderPart part = CodeBlockElement (content part) l).
Proof.
  destruct (parseMessage_scans s) as (cs & E & Hsc).
  exists (map part_of cs). split; [exact E|].
  intros part Hin. apply in_map_iff in Hin. destruct Hin as (c & <- & Hc).
  pose proof (scans_wf _ _ Hsc) as Hwf. rewrite Forall_forall in Hwf.
  specialize (Hwf c Hc).
  destruct c as [t|lang body]; (split; [|]); try discriminate; try reflexivity.
  intros _. destruct Hwf as [Hw _]. destruct lang as [|a lang].
  - exists plaintext. split; [reflexivity|]. split; [discriminate|].
    split; [exact plaintext_word|reflexivity].
  - exists (a :: lang). split; [reflexivity|]. split; [discriminate|].
    split; [exact Hw|reflexivity].
Qed.

(** X5 (no fence in the code).  The content of a Code segment never
    holds three backticks in a row. *)
Theorem code_segment_has_no_fence (s : jsstring) :
  exists parts,
    parseMessage s = Some parts
    /\ forall part k, In part parts -> type part = code ->
                      ~ occurs_at fence (content part) k.
Proof.
  destruct (parseMessage_scans s) as (cs & E & Hsc).
  exists (map part_of cs). split; [exact E|].
  intros part k Hin Hty Hocc.
  apply in_map_iff in Hin. destruct Hin as (c & <- & Hc).
  pose proof (scans_wf _ _ Hsc) as Hwf. rewrite Forall_forall in Hwf.
  specialize (Hwf c Hc).
  destruct c as [t|lang body]; [discriminate|]. destruct Hwf as [_ Hfc].
  cbn [part_of content] in Hocc.
  destruct (trim_spec body) as (l & r & Eb & _).
  destruct Hocc as (pre & post & Et & Hk).
  pose proof (f_equal (@length char) Eb) as Hlen.
  rewrite Et, !length_app in Hlen. cbn [length fence] in Hlen.
  apply (Hfc (length (l ++ pre))).
  - rewrite length_app. lia.
  - exists (l ++ pre), (post ++ r ++ fence). split; [|reflexivity].
    rewrite Eb at 1. rewrite Et. now rewrite <- !app_assoc.
Qed.

(** X6 (parsing a longer message).  Let [p] be extended by [q].  All
    that parseMessage returns for [p], but for a Text segment at the
    very end, it returns unchanged at the front for [p ++ q]; what
    follows is the parse of that final text with [q] behind it. *)
Theorem parseMessage_extension (p q : jsstring) :
  exists stable t more,
    parseMessage p
    = Some (stable ++ match t with [] => [] | _ :: _ => [mkPart text t None] end)
    /\ parseMessage (t ++ q) = Some more
    /\ parseMessage (p ++ q) = Some (stable ++ more).
Proof.
  destruct (parse_extension p q) as (cs & t & more & Ep & _ & Et & Epq).
  exists (map part_of cs), t, more.
  split; [|split; assumption].
  rewrite Ep. now destruct t.
Qed.

(* ================================================================== *)
(** ** More about the revealer *)
(* ================================================================== *)

Section RevealerMore.

Variable content : jsstring.

Lemma fold_monotone (more : list Event) : forall c,
  consistent content c ->
  currentIndex c <= currentIndex (fold_left (step content) more c).
Proof.
  induction more as [|e more IH]; intros c Hc; [cbn; lia|].
  cbn [fold_left].
  pose proof (step_monotone content c e Hc).
  pose proof (IH _ (step_consistent content c e Hc)). lia.
Qed.

(** Later states display an extension of what earlier states display. *)
Lemma fold_displayed_extends (more : list Event) (c : Component) :
  consistent content c ->
  exists q,
    displayedContent (fold_left (step content) more c) = displayedContent c ++ q.
Proof.
  intros Hc.
  pose proof (fold_monotone more c Hc) as Hm.
  pose proof (fold_consistent content more c Hc) as (m & _ & Hi' & Hd' & _).
  destruct Hc as (n & _ & Hi & Hd & _).
  exists (firstn (m - n) (skipn n content)).
  rewrite Hd, Hd', firstn_extend. f_equal. lia.
Qed.

(** A timeout before the end reveals three characters, or all that is
    left, or more. *)
Lemma tick_advance (c : Component) (n : nat) :
  consistent content c -> currentIndex c = Z.of_nat n ->
  (n < length content)%nat ->
  exists m, currentIndex (tick content c) = Z.of_nat m
            /\ (n + Nat.min 3 (length content - n) <= m)%nat.
Proof.
  intros Hc Hi Hlt.
  rewrite (tick_before_end content c n Hc Hi Hlt).
  match goal with
  | |- context [effect content ?x] => destruct (effect_index content x) as [-> _]
  end.
  cbn [currentIndex].
  destruct (onTimeout_cases content n (firstn n content) Hlt)
    as [(k & _ & (H3 & Hocc & _) & ->)|[_ ->]]; cbn [snd].
  - exists (n + (k + 3))%nat. split; [reflexivity|]. lia.
  - eexists. split; [reflexivity|]. lia.
Qed.

Lemma ticks_progress (k : nat) : forall c n,
  consistent content c -> currentIndex c = Z.of_nat n ->
  exists m, currentIndex (fold_left (step content) (repeat Tick k) c) = Z.of_nat m
            /\ (Nat.min (n + 3 * k) (length content) <= m)%nat.
Proof.
  induction k as [|k IH]; intros c n Hc Hi.
  - exists n. cbn. split; [exact Hi|]. lia.
  - cbn [repeat fold_left].
    pose proof (step_consistent content c Tick Hc) as Hc'.
    destruct (Nat.lt_ge_cases n (length content)) as [Hlt|Hge].
    + destruct (tick_advance c n Hc Hi Hlt) as (m1 & Hm1 & Hge1).
      destruct (IH _ m1 Hc' Hm1) as (m & Hm & Hgem).
      exists m. split; [exact Hm|]. lia.
    + assert (Hend : currentIndex c = len content).
      { destruct Hc as (n' & Hn' & Hi' & _). unfold len. lia. }
      rewrite step_at_end by assumption.
      destruct (IH c n Hc Hi) as (m & Hm & Hgem).
      exists m. split; [exact Hm|]. lia.
Qed.

(** The pause flag is set only by the click that completes. *)
Lemma fold_paused (events : list Event) : forall c,
  consistent content c ->
  (isPaused c = true -> currentIndex c = len content) ->
  isPaused (fold_left (step content) events c) = true ->
  currentIndex (fold_left (step content) events c) = len content.
Proof.
  induction events as [|e events IH]; intros c Hc Hp; [exact Hp|].
  cbn [fold_left]. apply IH; [now apply step_consistent|].
  pose proof Hc as (n & Hn & Hi & _).
  destruct (Nat.eq_dec n (length content)) as [->|Hne].
  - rewrite step_at_end by assumption. intros _. exact Hi.
  - assert (Hlt : (n < length content)%nat) by lia.
    destruct e; cbn [step].
    + rewrite (tick_before_end content c n Hc Hi Hlt).
      unfold effect. cbn [currentIndex isPaused].
      destruct (_ <? _); cbn [isPaused currentIndex]; intros Hpaused;
        specialize (Hp Hpaused); unfold len in Hp; lia.
    + rewrite click_before_end; [|exact Hc|unfold len; lia]. reflexivity.
Qed.

End RevealerMore.

(** X7 (what is rendered stays).  Between a state of the typewriter and
    any later state, all segments of the displayed text but a Text
    segment at the very end are the same, at the front of the later
    parse: a code block, once shown, is not changed by what is revealed
    after it. *)
Theorem rendering_is_stable (content : jsstring) (events more : list Event) :
  exists stable t later,
    parseMessage (displayedContent (run content events))
    = Some (stable ++ match t with [] => [] | _ :: _ => [mkPart text t None] end)
    /\ parseMessage (displayedContent (run content (events ++ more)))
       = Some (stable ++ later).
Proof.
  rewrite run_app.
  destruct (fold_displayed_extends content more (run content events)
              (run_consistent content events)) as (q & ->).
  destruct (parse_extension (displayedContent (run content events)) q)
    as (cs & t & later & Ep & _ & _ & Epq).
  exists (map part_of cs), t, later. split; [|exact Epq].
  rewrite Ep. now destruct t.
Qed.

(** X8 (number of timeouts).  From any state, one timeout for every
    three characters of the content, rounded up, completes the
    message. *)
Theorem complete_within_a_third (content : jsstring) (events : list Event) :
  isComplete (run content (events ++ repeat Tick ((length content + 2) / 3))) = true
  /\ displayedContent (run content (events ++ repeat Tick ((length content + 2) / 3)))
     = content.
Proof.
  rewrite run_app.
  pose proof (run_consistent content events) as Hc.
  pose proof Hc as (n & _ & Hi & _).
  destruct (ticks_progress content ((length content + 2) / 3) _ n Hc Hi)
    as (m & Hm & Hge).
  pose proof (fold_consistent content (repeat Tick ((length content + 2) / 3)) _ Hc)
    as (m' & Hm' & Hi' & Hd' & _ & Hcm' & _).
  assert (m' = m) by lia. subst m'.
  assert (H3 : (length content <= 3 * ((length content + 2) / 3))%nat).
  { pose proof (Nat.div_mod_eq (length content + 2) 3).
    pose proof (Nat.mod_upper_bound (length content + 2) 3). lia. }
  assert (m = length content) by lia. subst m.
  rewrite Hcm', Hd', Nat.ltb_irrefl, firstn_all. now split.
Qed.

(** X9 (the pause flag).  The pause flag is set only in a complete
    component, so whenever a timeout is scheduled its delay is the
    random one: the zero delay of a paused component is never asked
    for. *)
Theorem paused_only_when_complete (content : jsstring) (events : list Event) :
  (isPaused (run content events) = true -> isComplete (run content events) = true)
  /\ (timerPending (run content events) = true ->
      timeoutDelay (run content events) = Random).
Proof.
  pose proof (run_consistent content events) as Hc.
  assert (Hp : isPaused (run content events) = true ->
               currentIndex (run content events) = len content).
  { unfold run. apply fold_paused; [apply mount_consistent|].
    unfold mount, effect. cbn [currentIndex isPaused].
    destruct (_ <? _); discriminate. }
  destruct Hc as (n & Hn & Hi & _ & Ht & Hcm & _).
  assert (Hq : isPaused (run content events) = true -> (n <? length content)%nat = false).
  { intros H. specialize (Hp H). unfold len in Hp.
    destruct (Nat.ltb_spec n (length content)); [lia|reflexivity]. }
  split.
  - intros H. rewrite Hcm, (Hq H). reflexivity.
  - intros H. unfold timeoutDelay.
    destruct (isPaused (run content events)); [|reflexivity].
    rewrite Ht, (Hq eq_refl) in H. discriminate.
Qed.

Section RevealerAndParser.

(** The closing delimiter the revealer looks for, in front of a block
    of the parser, is the one that ends the block. *)
Lemma block_closing_at (lang body post : jsstring) :
  Forall (fun ch => is_word ch = true) lang -> first_closer body ->
  closing_at (fence ++ lang ++ [newline] ++ body ++ fence ++ post)
             (4 + length lang + length body).
Proof.
  intros Hl Hfc. split; [lia|]. split.
  - exists (fence ++ lang ++ [newline] ++ body), post.
    split; [now rewrite <- !app_assoc|].
    rewrite !length_app. cbn [length fence]. lia.
  - intros j Hj Hocc.
    assert (Hy : Forall (fun ch => ch <> backtick) (lang ++ [newline])).
    { apply Forall_app. split; [now apply word_not_backtick|].
      repeat constructor. discriminate. }
    assert (Hge : (3 + length (lang ++ [newline]) <= j)%nat).
    { apply (next_fence_after (lang ++ [newline]) (body ++ fence ++ post) j Hy);
        [now destruct lang| |lia].
      now rewrite <- !app_assoc. }
    rewrite length_app in Hge. cbn [length] in Hge.
    apply (Hfc (j - (4 + length lang))%nat); [lia|].
    apply (occurs_at_inside fence (fence ++ lang ++ [newline]) (body ++ fence) post).
    + replace (length (fence ++ lang ++ [newline]) + (j - (4 + length lang)))%nat
        with j by (rewrite !length_app; cbn [length fence]; lia).
      now rewrite <- !app_assoc.
    + rewrite length_app. cbn [length fence]. lia.
Qed.

End RevealerAndParser.

(** X10 (a block in front of the cursor).  When what is left to reveal
    starts with a block as parseMessage reads it (three backticks, a tag
    of word characters, a newline, a body that ends at the first three
    backticks), one timeout reveals exactly that block. *)
Theorem aligned_block_revealed_whole
        (content : jsstring) (events : list Event) (lang body post : jsstring) :
  slice_from content (currentIndex (run content events))
  = fence ++ lang ++ [newline] ++ body ++ fence ++ post ->
  Forall (fun ch => is_word ch = true) lang ->
  first_closer body ->
  displayedContent (tick content (run content events))
  = displayedContent (run content events)
    ++ fence ++ lang ++ [newline] ++ body ++ fence
  /\ currentIndex (tick content (run content events))
     = currentIndex (run content events)
       + len (fence ++ lang ++ [newline] ++ body ++ fence).
Proof.
  intros Hrem Hl Hfc.
  pose proof (run_consistent content events) as Hc.
  set (c := run content events) in *.
  pose proof Hc as (n & Hn & Hi & Hd & _).
  rewrite Hi in Hrem. rewrite slice_from_nat in Hrem by lia.
  assert (Hlt : (n < length content)%nat).
  { pose proof (f_equal (@length char) Hrem) as E.
    rewrite length_skipn, !length_app in E. cbn [length fence] in E. lia. }
  rewrite (tick_before_end content c n Hc Hi Hlt).
  match goal with
  | |- context [effect content ?x] =>
      destruct (effect_index content x) as [-> ->]
  end.
  cbn [currentIndex displayedContent]. rewrite Hi, Hd.
  pose proof (block_closing_at lang body post Hl Hfc) as Hclose.
  destruct (onTimeout_cases content n (firstn n content) Hlt)
    as [(k & _ & Hk & E)|[Hnot _]].
  - rewrite E. cbn [fst snd]. rewrite Hrem in Hk |- *.
    rewrite (closing_at_unique _ _ _ Hk Hclose).
    assert (Hfirst :
      firstn (4 + length lang + length body + 3)
             (fence ++ lang ++ [newline] ++ body ++ fence ++ post)
      = fence ++ lang ++ [newline] ++ body ++ fence).
    { replace (fence ++ lang ++ [newline] ++ body ++ fence ++ post)
        with ((fence ++ lang ++ [newline] ++ body ++ fence) ++ post)
        by now rewrite <- !app_assoc.
      rewrite firstn_app.
      replace (4 + length lang + length body + 3
               - length (fence ++ lang ++ [newline] ++ body ++ fence))%nat
        with 0%nat by (rewrite !length_app; cbn [length fence]; lia).
      cbn [firstn]. rewrite app_nil_r. apply firstn_all2.
      rewrite !length_app. cbn [length fence]. lia. }
    rewrite Hfirst. split; [reflexivity|].
    unfold len. rewrite !length_app. cbn [length fence]. lia.
  - exfalso. rewrite Hrem in Hnot. destruct Hclose as (H3 & Hocc & _).
    destruct Hnot as [Hnot|Hnot].
    + apply Hnot. now exists [], (lang ++ [newline] ++ body ++ fence ++ post).
    + exact (Hnot _ H3 Hocc).
Qed.

Lemma aligned_block_revealed_whole_witness :
  slice_from mixed_input (currentIndex (run mixed_input [Tick]))
  = fence ++ lit "python" ++ [newline] ++ (lit "print(1)" ++ nl) ++ fence
          ++ (nl ++ lit "Bye")
  /\ displayedContent (tick mixed_input (run mixed_input [Tick]))
     = displayedContent (run mixed_input [Tick])
       ++ fence ++ lit "python" ++ [newline] ++ (lit "print(1)" ++ nl) ++ fence.
Proof.
  assert (Hrem :
    slice_from mixed_input (currentIndex (run mixed_input [Tick]))
    = fence ++ lit "python" ++ [newline] ++ (lit "print(1)" ++ nl) ++ fence
            ++ (nl ++ lit "Bye")) by reflexivity.
  split; [exact Hrem|].
  apply (aligned_block_revealed_whole mixed_input [Tick] _ _ _ Hrem).
  - repeat constructor.
  - intros k Hk H. apply occurs_at_skipn in H. destruct H as [_ H].
    cbn in Hk. do 9 (destruct k as [|k]; [discriminate H|]). lia.
Defined.

(** X11 (revealed in full, rendered as any message).  Once the
    typewriter is complete, by a click or otherwise, it renders what
    the dashboard renders for a user message with the same content;
    only for the empty content does the typewriter return null where
    the dashboard returns no elements. *)
Theorem complete_render_matches_static (content : jsstring) (events : list Event) :
  exists elements,
    Dashboard.renderMessageContent (Dashboard.mkMessage Dashboard.user content)
    = Some (Dashboard.Elements elements)
    /\ renderContent (handleClick content (run content events))
       = match content with [] => None | _ :: _ => Some elements end
    /\ (isComplete (run content events) = true ->
        renderContent (run content events)
        = match content with [] => None | _ :: _ => Some elements end)
    /\ Dashboard.renderMessageContent (Dashboard.mkMessage Dashboard.assistant content)
       = Some (Dashboard.TypewriterMessageElement content).
Proof.
  destruct (parseMessage_scans content) as (cs & E & _).
  exists (map renderPart (map part_of cs)).
  unfold Dashboard.renderMessageContent. cbn [Dashboard.role Dashboard.content].
  rewrite E. split; [reflexivity|].
  pose proof (run_consistent content events) as Hc.
  assert (Hfull : forall c, consistent content c -> currentIndex c = len content ->
                    renderContent c
                    = match content with
                      | [] => None
                      | _ :: _ => Some (map renderPart (map part_of cs))
                      end).
  { intros c (n & _ & Hi & Hd & _) Hend.
    assert (n = length content) by (unfold len in Hend; lia). subst n.
    rewrite firstn_all in Hd. unfold renderContent. rewrite Hd, E.
    now destruct content. }
  split; [|split; [|reflexivity]].
  - apply Hfull; [now apply click_consistent|].
    destruct (Z.ltb_spec (currentIndex (run content events)) (len content)) as [Hlt|Hge].
    + now rewrite click_before_end.
    + unfold handleClick.
      destruct (Z.ltb_spec (currentIndex (run content events)) (len content)); [lia|].
      destruct Hc as (n & Hn & Hi & _). unfold len in *. lia.
  - intros Hdone. apply Hfull; [exact Hc|].
    destruct Hc as (n & Hn & Hi & _ & _ & Hcm & _). rewrite Hcm in Hdone.
    destruct (Nat.ltb_spec n (length content)); [discriminate|]. unfold len. lia.
Qed.

(* ================================================================== *)
(** ** The dashboard and the code block *)
(* ================================================================== *)

(** X12 (conversation title).  The title made from a first message is
    the message itself when it has at most 50 code units; otherwise it
    is its first 50 code units followed by three dots.  It is never
    longer than 53 code units. *)
Theorem title_of_first_message (messageContent : jsstring) :
  len (Dashboard.title messageContent) <= 53
  /\ (len messageContent <= 50 -> Dashboard.title messageContent = messageContent)
  /\ (50 < len messageContent ->
      Dashboard.title messageContent = firstn 50 messageContent ++ lit "..."
      /\ len (Dashboard.title messageContent) = 53).
Proof.
  unfold Dashboard.title.
  assert (Hs : slice messageContent 0 50 = firstn 50 messageContent).
  { unfold slice. change (0 <? 0) with false. change (50 <? 0) with false.
    cbv iota. pose proof (len_nonneg messageContent) as Hnn.
    rewrite (Z.min_l 0) by exact Hnn. change (Z.to_nat 0) with 0%nat.
    cbn [skipn]. rewrite Z.sub_0_r.
    destruct (Z.le_ge_cases 50 (len messageContent)) as [H|H].
    - rewrite Z.min_l by exact H. reflexivity.
    - rewrite Z.min_r by lia. unfold len in *. rewrite Nat2Z.id.
      rewrite firstn_all. symmetry. apply firstn_all2. lia. }
  rewrite Hs.
  destruct (Z.ltb_spec 50 (len messageContent)) as [Hlong|Hshort].
  - assert (Hl : length (firstn 50 messageContent) = 50%nat)
      by (rewrite length_firstn; unfold len in Hlong; lia).
    split; [|split; [lia|]].
    + unfold len. rewrite length_app, Hl. cbn. lia.
    + intros _. split; [reflexivity|]. unfold len. rewrite length_app, Hl. cbn. lia.
  - rewrite app_nil_r. split; [|split; [|lia]].
    + unfold len in *. rewrite length_firstn. lia.
    + intros _. apply firstn_all2. unfold len in Hshort. lia.
Qed.

Section CopyButton.




End CopyButton.


(* ================================================================== *)
(** ** Segments parsed again, and fence-free content *)
(* ================================================================== *)

Section Reparse.
Import Scanner.

Lemma parse_single_text (x : jsstring) :
  x <> [] -> first_block x = None ->
  parseMessage x = Some [mkPart text x None].
Proof.
  intros Hne F. destruct (parseMessage_scans x) as (cs & E & Hsc).
  rewrite E, (scans_functional _ _ _ Hsc (scans_text x Hne F)). reflexivity.
Qed.

Lemma first_block_without_fence (x : jsstring) :
  (forall k, ~ occurs_at fence x k) -> first_block x = None.
Proof.
  intros Hno. destruct (first_block x) as [[[[t w] b] after]|] eqn:F; [|reflexivity].
  exfalso. apply first_block_sound in F. destruct F as [Es _].
  apply (Hno (length t)). exists t, (w ++ [newline] ++ b ++ fence ++ after).
  split; [rewrite Es; cbn [source]; now rewrite <- !app_assoc|reflexivity].
Qed.

(** The text skipped in front of the leftmost block holds no block of
    its own. *)
Lemma skipped_text_has_no_block (s t w b after : jsstring) :
  first_block s = Some (t, w, b, after) -> first_block t = None.
Proof.
  intros F. destruct (first_block t) as [[[[t0 w0] b0] a0]|] eqn:Ft; [|reflexivity].
  exfalso.
  pose proof (first_block_sound _ _ _ _ _ F) as [Es _].
  pose proof (first_block_sound _ _ _ _ _ Ft) as [Et _].
  pose proof (first_block_app (source (FenceChunk w b) ++ after) _ _ _ _ _ Ft) as Fx.
  rewrite <- Es, F in Fx. injection Fx as E1 _ _ _.
  apply (f_equal (@length char)) in Et. rewrite E1, !length_app in Et.
  pose proof (source_fence_length w0 b0). lia.
Qed.

Lemma scans_text_alone (s : jsstring) (cs : list chunk) :
  scans s cs -> forall t, In (TextChunk t) cs -> first_block t = None.
Proof.
  induction 1 as [|t Ht Hn|s w b after cs Hf Hs IH|s t w b after cs Ht Hf Hs IH];
    intros t' Hin.
  - destruct Hin.
  - destruct Hin as [[= <-]|[]]. exact Hn.
  - destruct Hin as [Hin|Hin]; [discriminate|]. now apply IH.
  - destruct Hin as [[= <-]|[Hin|Hin]]; [|discriminate|now apply IH].
    now apply (skipped_text_has_no_block s t w b after).
Qed.

End Reparse.

(** X14 (segments parsed again).  The content of any segment that
    parseMessage returns, when it is not empty, parses to one Text
    segment holding it: a second pass finds no code block, neither in
    the text nor in the code. *)
Theorem segments_parse_as_text (s : jsstring) :
  exists parts,
    parseMessage s = Some parts
    /\ forall part, In part parts -> content part <> [] ->
         parseMessage (content part) = Some [mkPart text (content part) None].
Proof.
  destruct (parseMessage_scans s) as (cs & E & Hsc).
  exists (map part_of cs). split; [exact E|].
  intros part Hin Hne. apply in_map_iff in Hin. destruct Hin as (c & <- & Hc).
  apply parse_single_text; [exact Hne|].
  destruct c as [t|lang body].
  - exact (scans_text_alone s cs Hsc t Hc).
  - apply first_block_without_fence. intros k Hocc.
    pose proof (scans_wf _ _ Hsc) as Hwf. rewrite Forall_forall in Hwf.
    destruct (Hwf _ Hc) as [_ Hfc]. cbn [part_of content] in Hocc.
    destruct (trim_spec body) as (l & r & Eb & _).
    destruct Hocc as (pre & post & Et & Hk).
    pose proof (f_equal (@length char) Eb) as Hlen.
    rewrite Et, !length_app in Hlen. cbn [length fence] in Hlen.
    apply (Hfc (length (l ++ pre))).
    + rewrite length_app. lia.
    + exists (l ++ pre), (post ++ r ++ fence). split; [|reflexivity].
      rewrite Eb at 1. rewrite Et. now rewrite <- !app_assoc.
Qed.

Section FenceFree.

Variable content : jsstring.
Hypothesis no_fence : forall k, ~ occurs_at fence content k.

Lemma fence_free_tick (c : Component) (n : nat) :
  consistent content c -> currentIndex c = Z.of_nat n ->
  currentIndex (tick content c) = Z.of_nat (Nat.min (n + 3) (length content)).
Proof.
  intros Hc Hi. pose proof Hc as (n' & Hn & Hi' & _).
  assert (n' = n) by lia. subst n'.
  destruct (Nat.eq_dec n (length content)) as [->|Hne].
  - change (tick content c) with (step content c Tick).
    rewrite step_at_end; [|exact Hc|exact Hi]. rewrite Hi. f_equal. lia.
  - assert (Hlt : (n < length content)%nat) by lia.
    rewrite (tick_before_end content c n Hc Hi Hlt).
    match goal with
    | |- context [effect content ?x] => destruct (effect_index content x) as [-> _]
    end.
    cbn [currentIndex].
    destruct (onTimeout_cases content n (firstn n content) Hlt)
      as [(k & Hocc & _)|[_ ->]].
    + exfalso. apply (no_fence (n + 0)). apply occurs_at_shift; [lia|exact Hocc].
    + cbn [snd]. f_equal. lia.
Qed.

Lemma fence_free_ticks (k : nat) : forall c n,
  consistent content c -> currentIndex c = Z.of_nat n ->
  currentIndex (fold_left (step content) (repeat Tick k) c)
  = Z.of_nat (Nat.min (n + 3 * k) (length content)).
Proof.
  induction k as [|k IH]; intros c n Hc Hi.
  - cbn [repeat fold_left]. rewrite Hi. destruct Hc as (n' & Hn & Hi' & _).
    f_equal. lia.
  - cbn [repeat fold_left step].
    rewrite (IH _ (Nat.min (n + 3) (length content))
                (tick_consistent content c Hc) (fence_free_tick c n Hc Hi)).
    f_equal. lia.
Qed.

End FenceFree.

(** X15 (typing speed).  When three backticks do not occur in the
    content, the typewriter reveals three characters per timeout: after
    [k] timeouts from the start the cursor is at 3k, or at the end. *)
Theorem fence_free_reveal (content : jsstring) (k : nat) :
  (forall j, ~ occurs_at fence content j) ->
  currentIndex (run content (repeat Tick k)) = Z.min (3 * Z.of_nat k) (len content)
  /\ displayedContent (run content (repeat Tick k))
     = slice content 0 (3 * Z.of_nat k).
Proof.
  intros Hno.
  pose proof (fence_free_ticks content Hno k (mount content) 0
                (mount_consistent content)) as Hi.
  assert (H0 : currentIndex (mount content) = Z.of_nat 0).
  { unfold mount, effect. cbn [currentIndex]. now destruct (_ <? _). }
  specialize (Hi H0). fold (run content (repeat Tick k)) in Hi.
  pose proof (run_consistent content (repeat Tick k)) as (n & Hn & Hi' & Hd & _).
  split.
  - rewrite Hi. unfold len. lia.
  - rewrite Hd. assert (n = Nat.min (3 * k) (length content)) by lia. subst n.
    unfold slice. change (0 <? 0) with false.
    destruct (Z.ltb_spec (3 * Z.of_nat k) 0); [lia|].
    pose proof (len_nonneg content). rewrite (Z.min_l 0) by lia.
    change (Z.to_nat 0) with 0%nat. cbn [skipn]. f_equal. unfold len. lia.
Qed.

Lemma fence_free_reveal_witness :
  currentIndex (run (lit "hello, world") (repeat Tick 2))
  = Z.min (3 * Z.of_nat 2) (len (lit "hello, world"))
  /\ displayedContent (run (lit "hello, world") (repeat Tick 2))
     = slice (lit "hello, world") 0 (3 * Z.of_nat 2).
Proof.
  apply fence_free_reveal.
  intros k H. apply occurs_at_skipn in H. destruct H as [Hl H]. cbn in Hl.
  do 13 (destruct k as [|k]; [discriminate H|]). lia.
Defined.

(* ================================================================== *)
(** ** The list of conversations *)
(* ================================================================== *)

Section ConversationList.
Import Conversations.

Lemma strictEquals_eq (a b : jsstring) : JSArray.strictEquals a b = true <-> a = b.
Proof.
  revert b. induction a as [|x a IH]; intros [|y b]; cbn; split; try congruence.
  - intros H. apply andb_true_iff in H. destruct H as [Hx Hab].
    apply N.eqb_eq in Hx. apply IH in Hab. now subst.
  - intros [= -> ->]. rewrite N.eqb_refl. now apply IH.
Qed.

Lemma strictEquals_neq (a b : jsstring) : JSArray.strictEquals a b = false <-> a <> b.
Proof.
  rewrite <- strictEquals_eq. destruct (JSArray.strictEquals a b); split; congruence.
Qed.

(** [find] returns the head of what [filter] keeps. *)
Lemma find_is_head_of_filter {A : Type} (p : A -> bool) (xs : list A) :
  JSArray.find p xs = hd_error (filter p xs).
Proof.
  induction xs as [|x xs IH]; [reflexivity|].
  cbn. destruct (p x); [reflexivity|exact IH].
Qed.

End ConversationList.

(** X16 (deleting a conversation).  When the delete succeeds, the list
    that is set holds exactly the conversations with another id, in
    their order; when the deleted conversation was the current one, the
    conversation made current is the first of that list, or none when
    the list is empty, and the messages are cleared; when it was not,
    the current conversation is left alone.  On an error nothing is
    set. *)
Theorem delete_selects_first_remaining
        (conversations : list Conversations.Conversation)
        (currentConversation : option jsstring) (i : jsstring) :
  Conversations.deleteConversation conversations currentConversation i true = None
  /\ exists u,
       Conversations.deleteConversation conversations currentConversation i false
       = Some u
       /\ Conversations.setConversations u
          = filter (fun conv => negb (JSArray.strictEquals (Conversations.id conv) i))
                   conversations
       /\ (forall conv, In conv (Conversations.setConversations u)
                        <-> In conv conversations /\ Conversations.id conv <> i)
       /\ (currentConversation = Some i ->
           Conversations.setCurrentConversation u
           = Some (option_map Conversations.id
                              (hd_error (Conversations.setConversations u)))
           /\ Conversations.clearMessages u = true)
       /\ (currentConversation <> Some i ->
           Conversations.setCurrentConversation u = None
           /\ Conversations.clearMessages u = false).
Proof.
  split; [reflexivity|].
  unfold Conversations.deleteConversation.
  set (keep := fun conv => negb (JSArray.strictEquals (Conversations.id conv) i)).
  assert (Hin : forall conv, In conv (filter keep conversations)
                             <-> In conv conversations /\ Conversations.id conv <> i).
  { intros conv. rewrite filter_In. unfold keep. rewrite negb_true_iff.
    now rewrite strictEquals_neq. }
  destruct (Conversations.isCurrent currentConversation i) eqn:C.
  - eexists. split; [reflexivity|]. cbn. split; [reflexivity|].
    split; [exact Hin|]. split.
    + intros _. split; [|reflexivity]. f_equal.
      rewrite (find_is_head_of_filter keep).
      now destruct (hd_error (filter keep conversations)).
    + intros Hne. exfalso. apply Hne.
      destruct currentConversation as [c|]; [|discriminate C].
      cbn in C. apply strictEquals_eq in C. now subst.
  - eexists. split; [reflexivity|]. cbn. split; [reflexivity|].
    split; [exact Hin|]. split.
    + intros ->. cbn in C.
      assert (JSArray.strictEquals i i = true) by now apply strictEquals_eq.
      congruence.
    + intros _. now split.
Qed.

(** X17 (saving a title).  When saveTitle sets the list of
    conversations, the list has the same ids and dates in the same
    order; every conversation with the edited id has the trimmed title,
    which is not empty and has no whitespace at either end; every other
    conversation is unchanged. *)
Theorem saved_title_is_trimmed
        (conversations updated : list Conversations.Conversation)
        (editingTitle : option jsstring) (newTitle : jsstring) (error : bool) :
  Conversations.saveTitle conversations editingTitle newTitle error = Some updated ->
  exists edited,
    editingTitle = Some edited /\ edited <> [] /\ error = false
    /\ map Conversations.id updated = map Conversations.id conversations
    /\ map Conversations.updated_at updated
       = map Conversations.updated_at conversations
    /\ trim newTitle <> []
    /\ (forall c t, trim newTitle = c :: t -> is_space c = false)
    /\ (forall t c, trim newTitle = t ++ [c] -> is_space c = false)
    /\ forall k old,
         nth_error conversations k = Some old ->
         nth_error updated k
         = Some (if JSArray.strictEquals (Conversations.id old) edited
                 then Conversations.mkConversation
                        (Conversations.id old) (trim newTitle)
                        (Conversations.updated_at old)
                 else old).
Proof.
  unfold Conversations.saveTitle.
  destruct editingTitle as [[|c e]|]; try discriminate.
  destruct (trim newTitle) as [|a t] eqn:T; [discriminate|].
  destruct error; [discriminate|]. intros [= <-].
  exists (c :: e). split; [reflexivity|]. split; [discriminate|].
  split; [reflexivity|].
  destruct (trim_spec newTitle) as (l & r & _ & _ & _ & Hhead & Hlast).
  rewrite T in Hhead, Hlast.
  split; [|split; [|split; [discriminate|split; [exact Hhead|split; [exact Hlast|]]]]].
  - rewrite map_map. apply map_ext. intros conv.
    now destruct (JSArray.strictEquals _ _).
  - rewrite map_map. apply map_ext. intros conv.
    now destruct (JSArray.strictEquals _ _).
  - intros k old Hk. rewrite nth_error_map, Hk. reflexivity.
Qed.

Lemma saved_title_is_trimmed_witness :
  Conversations.saveTitle
    [Conversations.mkConversation (lit "c1") (lit "New Conversation") (lit "d1")]
    (Some (lit "c1")) (lit "  Plans ") false
  = Some [Conversations.mkConversation (lit "c1") (lit "Plans") (lit "d1")]
  /\ exists edited,
       Some (lit "c1") = Some edited /\ edited <> [] /\ false = false
       /\ map Conversations.id
              [Conversations.mkConversation (lit "c1") (lit "Plans") (lit "d1")]
          = map Conversations.id
                [Conversations.mkConversation (lit "c1") (lit "New Conversation")
                                              (lit "d1")].
Proof.
  assert (H : Conversations.saveTitle
                [Conversations.mkConversation (lit "c1") (lit "New Conversation")
                                              (lit "d1")]
                (Some (lit "c1")) (lit "  Plans ") false
              = Some [Conversations.mkConversation (lit "c1") (lit "Plans") (lit "d1")])
    by reflexivity.
  split; [exact H|].
  destruct (saved_title_is_trimmed _ _ _ _ _ H) as (edited & E1 & E2 & E3 & E4 & _).
  exists edited. repeat split; assumption.
Defined.

(* ================================================================== *)
(** ** Sorting, and the summary *)
(* ================================================================== *)

Section ArrayChecks.

(** Equal keys keep their order. *)
Example sort_is_stable :
  JSArray.sort (fun a b : Z * Z => fst a - fst b) [(2, 0); (1, 1); (2, 2); (1, 3)]
  = [(1, 1); (1, 3); (2, 0); (2, 2)].
Proof. reflexivity. Qed.

Example indexOf_first_or_minus_one :
  JSArray.indexOf [lit "a"; lit "b"; lit "a"] (lit "a") = 0
  /\ JSArray.indexOf [lit "a"; lit "b"; lit "a"] (lit "c") = -1.
Proof. split; reflexivity. Qed.

Example join_with_space :
  JSArray.join (lit " ") [lit "a"; lit "b"; lit "c"] = lit "a b c"
  /\ JSArray.join (lit " ") [] = [].
Proof. split; reflexivity. Qed.

End ArrayChecks.

Section SortFacts.

Context {A : Type}.
Variable compare : A -> A -> Z.
Variable key : A -> Z.
Hypothesis compare_key : forall a b, compare a b <= 0 <-> key a <= key b.

Lemma insert_perm (x : A) (xs : list A) :
  Permutation (JSArray.insert compare x xs) (x :: xs).
Proof.
  induction xs as [|y xs IH]; cbn; [reflexivity|].
  destruct (compare x y <=? 0); [reflexivity|].
  rewrite IH. apply perm_swap.
Qed.

Lemma sort_perm (xs : list A) : Permutation (JSArray.sort compare xs) xs.
Proof.
  induction xs as [|x xs IH]; cbn; [reflexivity|].
  unfold JSArray.sort in IH. rewrite insert_perm. now constructor.
Qed.

Lemma insert_sorted (x : A) (xs : list A) :
  StronglySorted (fun a b => key a <= key b) xs ->
  StronglySorted (fun a b => key a <= key b) (JSArray.insert compare x xs).
Proof.
  induction 1 as [|y xs Hs IH Hy]; cbn.
  - repeat constructor.
  - destruct (Z.leb_spec (compare x y) 0) as [Hle|Hgt].
    + apply compare_key in Hle. constructor; [now constructor|].
      constructor; [exact Hle|].
      rewrite Forall_forall in Hy |- *. intros z Hz. specialize (Hy z Hz).
      cbn beta in Hy. lia.
    + assert (Hyx : key y <= key x).
      { destruct (Z.le_gt_cases (key x) (key y)) as [H|H]; [|lia].
        apply compare_key in H. lia. }
      constructor; [exact IH|].
      rewrite Forall_forall in Hy |- *. intros z Hz.
      apply (Permutation_in _ (insert_perm x xs)) in Hz.
      destruct Hz as [<-|Hz]; [exact Hyx|now apply Hy].
Qed.

Lemma sort_sorted (xs : list A) :
  StronglySorted (fun a b => key a <= key b) (JSArray.sort compare xs).
Proof.
  induction xs as [|x xs IH]; cbn; [constructor|]. now apply insert_sorted.
Qed.

End SortFacts.

Section SummaryFacts.

Variables nouns verbs adjectives : jsstring -> Z.

Lemma array_slice_front {A : Type} (xs : list A) (k : nat) :
  (k <= length xs)%nat -> JSArray.slice xs 0 (Z.of_nat k) = firstn k xs.
Proof.
  intros Hk. unfold JSArray.slice. change (0 <? 0) with false.
  destruct (Z.ltb_spec (Z.of_nat k) 0); [lia|].
  rewrite (Z.min_l 0) by lia. rewrite Z.min_l by lia.
  change (Z.to_nat 0) with 0%nat. cbn [skipn]. f_equal. lia.
Qed.

Lemma summaryLength_value (sentences : list jsstring) :
  (3 <= length sentences)%nat ->
  Nlp.summaryLength sentences
  = Z.of_nat (if (length sentences <=? 4)%nat then 2 else 3).
Proof.
  intros H. unfold Nlp.summaryLength.
  destruct (Nat.leb_spec (length sentences) 4) as [H4|H4].
  - assert (E : length sentences = 3%nat \/ length sentences = 4%nat) by lia.
    destruct E as [-> | ->]; reflexivity.
  - assert (3 <= (Z.of_nat (length sentences) + 1) / 2).
    { apply Z.div_le_lower_bound; lia. }
    lia.
Qed.

Lemma strongly_sorted_split {A : Type} (R : A -> A -> Prop) (xs ys : list A) :
  StronglySorted R (xs ++ ys) -> forall x y, In x xs -> In y ys -> R x y.
Proof.
  induction xs as [|a xs IH]; intros Hs x y Hx Hy; [destruct Hx|].
  cbn in Hs. apply StronglySorted_inv in Hs. destruct Hs as [Hs Ha].
  destruct Hx as [<-|Hx].
  - rewrite Forall_forall in Ha. apply Ha. apply in_or_app. now right.
  - now apply IH.
Qed.

End SummaryFacts.

(** X18 (the summary).  For three sentences or more the summary is
    made of two of them when there are at most four, of three
    otherwise.  They stand in the order of their first occurrence in
    the text, and none of the sentences left out has a higher score
    than one that was taken.  For two sentences or fewer the summary is
    all of them, joined by a space. *)
Theorem summary_takes_top_sentences
        (nouns verbs adjectives : jsstring -> Z) (sentences : list jsstring) :
  ((length sentences <= 2)%nat ->
   Nlp.generateSummary nouns verbs adjectives sentences
   = JSArray.join (lit " ") sentences)
  /\ ((3 <= length sentences)%nat ->
      Nlp.generateSummary nouns verbs adjectives sentences
      = JSArray.join (lit " ") (Nlp.topSentences nouns verbs adjectives sentences)
      /\ length (Nlp.topSentences nouns verbs adjectives sentences)
         = (if (length sentences <=? 4)%nat then 2 else 3)%nat
      /\ StronglySorted
           (fun a b => JSArray.indexOf sentences a <= JSArray.indexOf sentences b)
           (Nlp.topSentences nouns verbs adjectives sentences)
      /\ exists taken left,
           Permutation (taken ++ left)
                       (Nlp.sentenceScores nouns verbs adjectives sentences)
           /\ Permutation (Nlp.topSentences nouns verbs adjectives sentences)
                          (map Nlp.sentence taken)
           /\ forall x y, In x taken -> In y left ->
                          Nlp.score y <= Nlp.score x).
Proof.
  unfold Nlp.generateSummary. split.
  - intros H. destruct (Z.leb_spec (Z.of_nat (length sentences)) 2); [reflexivity|lia].
  - intros H. destruct (Z.leb_spec (Z.of_nat (length sentences)) 2); [lia|].
    split; [reflexivity|].
    set (byScore := fun a b : Nlp.Scored => Nlp.score b - Nlp.score a).
    set (byIndex := fun a b : jsstring =>
                      JSArray.indexOf sentences a - JSArray.indexOf sentences b).
    set (sorted := JSArray.sort byScore
                     (Nlp.sentenceScores nouns verbs adjectives sentences)).
    set (k := if (length sentences <=? 4)%nat then 2%nat else 3%nat).
    assert (Hperm : Permutation sorted
                      (Nlp.sentenceScores nouns verbs adjectives sentences))
      by apply sort_perm.
    assert (Hlen : length sorted = length sentences).
    { rewrite (Permutation_length Hperm). unfold Nlp.sentenceScores.
      apply length_map. }
    assert (Hk : (k <= length sorted)%nat).
    { unfold k. destruct (Nat.leb_spec (length sentences) 4); lia. }
    assert (Htop : Nlp.topSentences nouns verbs adjectives sentences
                   = JSArray.sort byIndex (map Nlp.sentence (firstn k sorted))).
    { unfold Nlp.topSentences. fold byScore byIndex sorted.
      rewrite (summaryLength_value sentences H). fold k.
      now rewrite array_slice_front. }
    rewrite Htop. split; [|split].
    + rewrite (Permutation_length (sort_perm byIndex _)).
      rewrite length_map, length_firstn. lia.
    + apply (sort_sorted byIndex (JSArray.indexOf sentences)).
      intros a b. unfold byIndex. lia.
    + exists (firstn k sorted), (skipn k sorted). split; [|split].
      * now rewrite firstn_skipn.
      * apply sort_perm.
      * intros x y Hx Hy.
        assert (Hs : StronglySorted (fun a b => - Nlp.score a <= - Nlp.score b)
                                    (firstn k sorted ++ skipn k sorted)).
        { rewrite firstn_skipn.
          apply (sort_sorted byScore (fun a => - Nlp.score a)).
          intros a b. unfold byScore. lia. }
        pose proof (strongly_sorted_split _ _ _ Hs x y Hx Hy) as Hxy.
        cbn beta in Hxy. lia.
Qed.
